(** * Storage pools for QEMU: a shallow embedding of [virttest/qemu_storage_pool.py]

    The development follows the Python module top to bottom:
    - the size formatter [format_size_human_readable], over IEEE-754
      binary64 values (Python's [float]) as specified by [SpecFloat];
    - the exception classes and their [__str__] renderings;
    - the abstract [PoolBase] and the concrete [DirectoryPool], as
      computations over a world made of the pool object and the
      filesystem it talks to.

    Python state is threaded explicitly: an operation maps a world to an
    outcome (a returned value or a raised exception) and the world it
    leaves behind, so that mutations made before a [raise] stay visible. *)

From Stdlib Require Import ZArith String Ascii List DecimalString SpecFloat Lia Bool.
From stdpp Require Import gmap strings list.

Open Scope string_scope.
Open Scope Z_scope.

(** String concatenation is written [+:+]; it unfolds on a literal. *)
#[local] Arguments String.append !s1 s2 : simpl nomatch.

(** ** Strings *)

(** [s.startswith(p)] *)
Fixpoint startswith (p s : string) : bool :=
  match p, s with
  | EmptyString, _ => true
  | String a p', String b s' => if Ascii.eqb a b then startswith p' s' else false
  | String _ _, EmptyString => false
  end.

(** [s.endswith('/')]: the last character of a non-empty string is [c]. *)
Fixpoint endswith_char (c : ascii) (s : string) : bool :=
  match s with
  | EmptyString => false
  | String a EmptyString => Ascii.eqb a c
  | String _ s' => endswith_char c s'
  end.

(** [p in s] for strings. *)
Fixpoint contains (p s : string) : bool :=
  startswith p s ||
  match s with
  | EmptyString => false
  | String _ s' => contains p s'
  end.

(** [c in s] for a character. *)
Fixpoint has_char (c : ascii) (s : string) : bool :=
  match s with
  | EmptyString => false
  | String a s' => Ascii.eqb a c || has_char c s'
  end.

(** [re.sub] with a literal, non-empty pattern: every leftmost,
    non-overlapping occurrence of [pat] is replaced by [rep].  [skip]
    counts the characters of a matched occurrence still to be consumed. *)
Fixpoint sub_from (pat rep : string) (skip : nat) (s : string) : string :=
  match s with
  | EmptyString => EmptyString
  | String c s' =>
      match skip with
      | S k => sub_from pat rep k s'
      | O =>
          if startswith pat s
          then rep +:+ sub_from pat rep (Nat.pred (String.length pat)) s'
          else String c (sub_from pat rep O s')
      end
  end.

Definition re_sub (pat rep s : string) : string := sub_from pat rep O s.

(** The double-quote and newline characters. *)
Definition dq : string := String (ascii_of_nat 34) EmptyString.
Definition nl : string := String (ascii_of_nat 10) EmptyString.

(** ['%d' % z] for an integer. *)
Definition str_of_Z (z : Z) : string := NilZero.string_of_int (Z.to_int z).

(** [os.path.join(a, b)] on POSIX. *)
Definition os_path_join (a b : string) : string :=
  if startswith "/" b then b
  else if String.eqb a EmptyString || endswith_char "/" a then a +:+ b
  else a +:+ "/" +:+ b.

(** ** Exceptions *)

Inductive exn : Type :=
| NotImplementedError
| UnboundLocalError
| OSError
| OverflowError
| ValueError
| TypeError (msg : string)
| DirectoryPoolConfigError (err_msg : string)
| DirectoryPoolInactiveError (pool_name func_name : string)
| PoolVolNotExistError (pool_name vol_name : string).

(** [str(e)] for the exception classes of the module that define
    [__str__]; the built-in ones print their message. *)
Definition exn_str (e : exn) : string :=
  match e with
  | PoolVolNotExistError pool_name vol_name =>
      "failed to get vol '" +:+ vol_name +:+ "' in pool '" +:+ pool_name +:+ "'"
  | DirectoryPoolConfigError err_msg =>
      "required field: path" +:+ nl +:+ "but " +:+ err_msg
  | DirectoryPoolInactiveError pool_name func_name =>
      "DirectoryPool " +:+ pool_name +:+ " is inactive, unable to call "
        +:+ func_name +:+ "."
  | TypeError msg => msg
  | NotImplementedError | UnboundLocalError | OSError | OverflowError
  | ValueError =>
      EmptyString
  end.

Inductive outcome (A : Type) : Type :=
| Ret (a : A)
| Raise (e : exn).
Arguments Ret {A} a.
Arguments Raise {A} e.

(** ** Python floats *)

Module Float.

Definition prec : Z := 53.
Definition emax : Z := 1024.

(** [float(v)] for an [int]: correctly rounded, [OverflowError] when
    the rounded value does not fit a double. *)
Definition of_int (v : Z) : outcome spec_float :=
  match binary_normalize prec emax v 0 false with
  | S754_infinity _ | S754_nan => Raise OverflowError
  | x => Ret x
  end.

(** An [int] operand of a float operation is converted first; the
    operands used here ([base], [unit]) are far below the overflow
    threshold. *)
Definition coerce (v : Z) : spec_float := binary_normalize prec emax v 0 false.

Definition mul : spec_float -> spec_float -> spec_float := SFmul prec emax.
Definition div : spec_float -> spec_float -> spec_float := SFdiv prec emax.

Definition signed (s : bool) (m : positive) : Z :=
  if s then Z.neg m else Z.pos m.

(** [x < u] for a float [x] and an [int] [u]: Python compares the two
    exactly, without rounding [u]. *)
Definition lt_int (x : spec_float) (u : Z) : bool :=
  match x with
  | S754_nan => false
  | S754_infinity s => s
  | S754_zero _ => 0 <? u
  | S754_finite s m e =>
      if 0 <=? e then signed s m * 2 ^ e <? u
      else signed s m <? u * 2 ^ (- e)
  end.

(** [x.is_integer()] *)
Definition is_integer (x : spec_float) : bool :=
  match x with
  | S754_nan | S754_infinity _ => false
  | S754_zero _ => true
  | S754_finite _ m e =>
      if 0 <=? e then true else Z.pos m mod 2 ^ (- e) =? 0
  end.

(** ['%d' % x]: the float is truncated towards zero; infinities and
    NaN cannot be converted. *)
Definition pct_d (x : spec_float) : outcome string :=
  match x with
  | S754_nan => Raise ValueError
  | S754_infinity _ => Raise OverflowError
  | S754_zero _ => Ret "0"
  | S754_finite s m e =>
      Ret (str_of_Z (if 0 <=? e then signed s m * 2 ^ e
                     else Z.quot (signed s m) (2 ^ (- e))))
  end.

(** Tenths of [m * 2^e], rounded to nearest, ties to even. *)
Definition tenths (m : positive) (e : Z) : Z :=
  if 0 <=? e then 10 * Z.pos m * 2 ^ e
  else
    let d := 2 ^ (- e) in
    let q := (10 * Z.pos m) / d in
    let r := (10 * Z.pos m) mod d in
    match 2 * r ?= d with
    | Lt => q
    | Gt => q + 1
    | Eq => if Z.even q then q else q + 1
    end.

(** ['%.1f' % x]: one correctly rounded decimal place. *)
Definition pct_1f (x : spec_float) : string :=
  match x with
  | S754_nan => "nan"
  | S754_infinity s => if s then "-inf" else "inf"
  | S754_zero s => if s then "-0.0" else "0.0"
  | S754_finite s m e =>
      let t := tenths m e in
      (if s then "-" else EmptyString)
        +:+ str_of_Z (t / 10) +:+ "." +:+ str_of_Z (t mod 10)
  end.

End Float.

(** ** [format_size_human_readable] *)

Definition suffixes (binary : bool) : list string :=
  if binary
  then ["B"; "KiB"; "MiB"; "GiB"; "TiB"; "PiB"; "EiB"; "ZiB"; "YiB"]
  else ["B"; "kB"; "MB"; "GB"; "TB"; "PB"; "EB"; "ZB"; "YB"].

Definition size_base (binary : bool) : Z := if binary then 1024 else 1000.

(** The [for i, s in enumerate(suffix)] loop with its [break]: [i] is
    the index of the next suffix, [cur] the last [(s, unit)] bound by
    the loop, which is what the code after the loop reads. *)
Fixpoint scan_units (value : spec_float) (base : Z) (i : nat)
    (suffix : list string) (cur : option (string * Z)) : option (string * Z) :=
  match suffix with
  | [] => cur
  | s :: rest =>
      let unit := base ^ (Z.of_nat i + 1) in
      if Float.lt_int value unit then Some (s, unit)
      else scan_units value base (S i) rest (Some (s, unit))
  end.

(** [format_size_human_readable(value, binary)] with the default
    [format='%.1f'], which is what every caller uses. *)
Definition format_size_human_readable (value : Z) (binary : bool)
  : outcome string :=
  let suffix := suffixes binary in
  let base := size_base binary in
  match Float.of_int value with
  | Raise e => Raise e
  | Ret value =>
      match scan_units value base O suffix None with
      | None => Raise UnboundLocalError
      | Some (s, unit) =>
          let value := Float.div (Float.mul value (Float.coerce base))
                                 (Float.coerce unit) in
          if Float.is_integer value
          then match Float.pct_d value with
               | Ret d => Ret (d +:+ " " +:+ s)
               | Raise e => Raise e
               end
          else Ret (Float.pct_1f value +:+ " " +:+ s)
      end
  end.

(** ** Dictionaries in insertion order

    A Python [dict] keeps its keys in insertion order and holds each key
    once; [pool_list_vols] depends on that order for the volume it
    reports first. *)

Section Dict.
Context {V : Type}.

(** [d.get(k)] *)
Fixpoint dict_get (k : string) (d : list (string * V)) : option V :=
  match d with
  | [] => None
  | (k', v) :: d' => if String.eqb k k' then Some v else dict_get k d'
  end.

(** [k in d] *)
Definition dict_contains (k : string) (d : list (string * V)) : bool :=
  match dict_get k d with Some _ => true | None => false end.

(** [d[k] = v]: in place when [k] is present, at the end otherwise. *)
Fixpoint dict_set (k : string) (v : V) (d : list (string * V))
  : list (string * V) :=
  match d with
  | [] => [(k, v)]
  | (k', v') :: d' =>
      if String.eqb k k' then (k', v) :: d' else (k', v') :: dict_set k v d'
  end.

(** [del d[k]] for a key that is present. *)
Fixpoint dict_del (k : string) (d : list (string * V)) : list (string * V) :=
  match d with
  | [] => []
  | (k', v') :: d' =>
      if String.eqb k k' then d' else (k', v') :: dict_del k d'
  end.

(** [list(d)]: the keys, in order. *)
Definition dict_keys (d : list (string * V)) : list string := map fst d.

(** [d[k]] on a [defaultdict]: a missing key is first bound to the
    value of the default factory, and the dict keeps that binding. *)
Definition defaultdict_getitem (default : V) (k : string)
    (d : list (string * V)) : V * list (string * V) :=
  match dict_get k d with
  | Some v => (v, d)
  | None => (default, dict_set k default d)
  end.

End Dict.

(** ** The filesystem *)

(** The fields of [os.stat_result] that [get_vol_info] reads;
    [st_blocks] is absent on platforms that do not report it. *)
Record stat_result : Type := {
  st_mode : Z;
  st_uid : Z;
  st_gid : Z;
  st_size : Z;
  st_blocks : option Z;
  st_atime : spec_float;
  st_mtime : spec_float;
  st_ctime : spec_float
}.

Inductive fnode : Type :=
| RegularFile (st : stat_result) (content : string)
| Directory.

(** [os.path.isfile(p)] *)
Definition os_path_isfile (fs : gmap string fnode) (p : string) : bool :=
  match fs !! p with
  | Some (RegularFile _ _) => true
  | _ => false
  end.

(** [os.stat(p)] of a regular file. *)
Definition os_stat (fs : gmap string fnode) (p : string) : option stat_result :=
  match fs !! p with
  | Some (RegularFile st _) => Some st
  | _ => None
  end.

(** [os.remove(p)] of a regular file. *)
Definition os_remove (fs : gmap string fnode) (p : string) : gmap string fnode :=
  delete p fs.

(** [stat.S_IMODE(mode)] *)
Definition S_IMODE (mode : Z) : Z := Z.land mode 4095.

(** ** Pool objects *)

(** A value of [self.volumes]: the list [[path, url, json]]. *)
Record volume : Type := {
  vol_path : string;
  vol_url : string;
  vol_json : string
}.

(** [lambda: ['', '', '']] *)
Definition default_volume : volume :=
  {| vol_path := EmptyString; vol_url := EmptyString; vol_json := EmptyString |}.

(** [self.config] of a directory pool: the [locals()] of [parser],
    a dict with the single key [path]. *)
Record pool_config : Type := { path : string }.

Record DirectoryPool : Type := {
  name : string;
  uuid : N;
  config : pool_config;
  source_list : list string;
  target_list : list string;
  active : bool;
  volumes : list (string * volume)
}.

(** The state an operation runs in: the pool it is called on and the
    filesystem of the host. *)
Record world : Type := {
  self : DirectoryPool;
  fs : gmap string fnode
}.

Definition set_volumes (vs : list (string * volume)) (w : world) : world :=
  {| self := {| name := name (self w); uuid := uuid (self w);
                config := config (self w);
                source_list := source_list (self w);
                target_list := target_list (self w);
                active := active (self w);
                volumes := vs |};
     fs := fs w |}.

Definition set_fs (fs' : gmap string fnode) (w : world) : world :=
  {| self := self w; fs := fs' |}.

(** ** Computations *)

Definition M (A : Type) : Type := world -> outcome A * world.

Definition ret {A} (a : A) : M A := fun w => (Ret a, w).
Definition raise {A} (e : exn) : M A := fun w => (Raise e, w).
Definition bind {A B} (m : M A) (k : A -> M B) : M B :=
  fun w =>
    match m w with
    | (Ret a, w') => k a w'
    | (Raise e, w') => (Raise e, w')
    end.
Definition get : M world := fun w => (Ret w, w).
Definition modify (f : world -> world) : M unit := fun w => (Ret tt, f w).
Definition lift {A} (o : outcome A) : M A := fun w => (o, w).

Notation "x <~ m ;; k" := (bind m (fun x => k))
  (at level 100, m at next level, right associativity).
Notation "m ;;; k" := (bind m (fun _ => k))
  (at level 100, right associativity).

(** [self.volumes[vol_name]] *)
Definition volumes_getitem (vol_name : string) : M volume :=
  fun w =>
    let '(v, vs) := defaultdict_getitem default_volume vol_name
                      (volumes (self w)) in
    (Ret v, set_volumes vs w).

(** [self.volumes[vol_name][i] = x], through [f], which sets slot [i]. *)
Definition volumes_setslot (vol_name : string) (f : volume -> volume) : M unit :=
  v <~ volumes_getitem vol_name ;;
  modify (fun w => set_volumes (dict_set vol_name (f v) (volumes (self w))) w).

(** ** Values of the result dictionaries *)

#[warnings="-register-all"] Inductive pyval : Type :=
| VStr (s : string)
| VInt (z : Z)
| VFloat (x : spec_float)
| VDict (d : list (string * pyval)).

(** [bool(v)] for the values stored under [allocated_size]. *)
Definition truthy (v : pyval) : bool :=
  match v with
  | VStr s => negb (String.eqb s EmptyString)
  | VInt z => negb (z =? 0)
  | VFloat x => negb (SFeqb x (S754_zero false))
  | VDict d => match d with [] => false | _ => true end
  end.

(** [template % args] for a template whose only directives are [%s]. *)
Fixpoint pct_s (template : string) (args : list string) : outcome string :=
  match template with
  | EmptyString =>
      match args with
      | [] => Ret EmptyString
      | _ => Raise (TypeError "not all arguments converted during string formatting")
      end
  | String c t' =>
      if Ascii.eqb c "%" then
        match t' with
        | String d t'' =>
            if Ascii.eqb d "s" then
              match args with
              | a :: args' =>
                  match pct_s t'' args' with
                  | Ret r => Ret (a +:+ r)
                  | Raise e => Raise e
                  end
              | [] => Raise (TypeError "not enough arguments for format string")
              end
            else Raise ValueError
        | EmptyString => Raise ValueError
        end
      else
        match pct_s t' args with
        | Ret r => Ret (String c r)
        | Raise e => Raise e
        end
  end.

(** ** [DirectoryPool]

    The constructor, the volume operations and the two lifecycle
    methods inherited from [PoolBase].  [pool_start], [pool_stat] and
    [pool_info], which need the working directory and [os.statvfs], are
    not part of the embedding; a started pool is a pool whose [active]
    flag is set. *)

(** [DirectoryPool.json_template] *)
Definition json_template : string :=
  "{" +:+ dq +:+ "driver" +:+ dq +:+ ": " +:+ dq +:+ "%s" +:+ dq +:+ ", "
  +:+ dq +:+ "file" +:+ dq +:+ ": {" +:+ dq +:+ "driver" +:+ dq +:+ ": "
  +:+ dq +:+ "file" +:+ dq +:+ ", "
  +:+ dq +:+ "filename" +:+ dq +:+ ": " +:+ dq +:+ "%s" +:+ dq +:+ "}}".

(** The outcome of calling [def parser(path)] with the entries of
    [config] as keyword arguments:
    keywords are bound in the order of the dict, the first one that is
    not a parameter is rejected at once, and a parameter left unbound is
    reported after all keywords have been bound.  The messages are
    those of CPython 3 (a release that prefixes the qualified name of the
    function still ends the name with [parser()]). *)
Fixpoint parser (config : list (string * string)) (bound : option string)
  : outcome pool_config :=
  match config with
  | [] =>
      match bound with
      | Some p => Ret {| path := p |}
      | None =>
          Raise (TypeError
                   "parser() missing 1 required positional argument: 'path'")
      end
  | (k, v) :: config' =>
      if String.eqb k "path" then parser config' (Some v)
      else Raise (TypeError
                    ("parser() got an unexpected keyword argument '" +:+ k +:+ "'"))
  end.

(** [DirectoryPool._parse_config] *)
Definition _parse_config (config : list (string * string))
  : outcome pool_config :=
  match parser config None with
  | Ret c => Ret c
  | Raise (TypeError e) =>
      Raise (DirectoryPoolConfigError (re_sub "parser()" "DirectoryPool" e))
  | Raise e => Raise e
  end.

(** [DirectoryPool.__init__], that is [PoolBase.__init__] with the
    default [source_list] and [target_list]; [fresh_uuid] is the value
    drawn by [uuid.uuid4()]. *)
Definition DirectoryPool_init (pool_name : string)
    (cfg : list (string * string)) (fresh_uuid : N) : outcome DirectoryPool :=
  match _parse_config cfg with
  | Raise e => Raise e
  | Ret c =>
      Ret {| name := pool_name; uuid := fresh_uuid; config := c;
             source_list := []; target_list := [];
             active := false; volumes := [] |}
  end.

Definition _format_vol_path (vol_name : string) : M string :=
  w <~ get ;; ret (os_path_join (path (config (self w))) vol_name).

Definition _format_as_url (vol_name : string) : M string :=
  p <~ _format_vol_path vol_name ;; ret ("file:" +:+ p).

Definition _format_as_json (vol_path vol_format : string) : M string :=
  lift (pct_s json_template [vol_format; vol_path]).

Definition is_pool_active : M bool :=
  w <~ get ;; ret (active (self w)).

Definition is_volumes_existed (vol_name : string) : M bool :=
  w <~ get ;; ret (dict_contains vol_name (volumes (self w))).

(** The methods of the abstract [PoolBase] that [DirectoryPool] does
    not override. *)
Module PoolBase.
Definition pool_destroy : M unit := raise NotImplementedError.
Definition pool_delete : M unit := raise NotImplementedError.
End PoolBase.

(** [DirectoryPool] defines neither [pool_destroy] nor [pool_delete]:
    a call on a directory pool resolves to the method of [PoolBase]. *)
Definition pool_destroy : M unit := PoolBase.pool_destroy.
Definition pool_delete : M unit := PoolBase.pool_delete.

(** The verbose part of [get_vol_info]: the fields read from
    [os.stat(path)] are added to [info_dict] one by one. *)
Definition vol_stat_info (st : stat_result) (human : bool)
    (info_dict : list (string * pyval)) : outcome (list (string * pyval)) :=
  let info_dict := dict_set "size" (VInt (st_size st)) info_dict in
  let info_dict :=
    match st_blocks st with
    | Some b => dict_set "allocated_size" (VInt (b * 512)) info_dict
    | None => info_dict
    end in
  let info_dict := dict_set "mode" (VInt (S_IMODE (st_mode st))) info_dict in
  let info_dict := dict_set "owner" (VInt (st_uid st)) info_dict in
  let info_dict := dict_set "group" (VInt (st_gid st)) info_dict in
  let info_dict :=
    dict_set "timestamp"
      (VDict [("atime", VFloat (st_atime st));
              ("mtime", VFloat (st_mtime st));
              ("ctime", VFloat (st_ctime st))]) info_dict in
  if human then
    match format_size_human_readable (st_size st) true with
    | Raise e => Raise e
    | Ret size =>
        let info_dict := dict_set "size" (VStr size) info_dict in
        match dict_get "allocated_size" info_dict with
        | Some (VInt a) =>
            if truthy (VInt a) then
              match format_size_human_readable a true with
              | Raise e => Raise e
              | Ret asize => Ret (dict_set "allocated_size" (VStr asize) info_dict)
              end
            else Ret info_dict
        | _ => Ret info_dict
        end
    end
  else Ret info_dict.

(** [DirectoryPool.get_vol_info].  The guard reads the attribute
    [self.is_volumes_existed] without calling it; a bound method is
    always true. *)
Definition get_vol_info (vol_name : string) (verbose human : bool)
  : M (list (string * pyval)) :=
  v <~ volumes_getitem vol_name ;;
  let path := vol_path v in
  w <~ get ;;
  let self_is_volumes_existed := true in
  if negb (self_is_volumes_existed && os_path_isfile (fs w) path)
  then raise (PoolVolNotExistError (name (self w)) vol_name)
  else
    let info_dict := [("path", VStr path)] in
    if negb verbose then ret info_dict
    else
      match os_stat (fs w) path with
      | None => raise OSError
      | Some vol_stat => lift (vol_stat_info vol_stat human info_dict)
      end.

(** The loop of [pool_list_vols] over the names of [self.volumes]. *)
Fixpoint list_vols_loop (names : list string) (verbose human : bool)
    (info_dict : list (string * pyval)) : M (list (string * pyval)) :=
  match names with
  | [] => ret info_dict
  | vol_name :: names' =>
      i <~ get_vol_info vol_name verbose human ;;
      list_vols_loop names' verbose human (dict_set vol_name (VDict i) info_dict)
  end.

(** [DirectoryPool.pool_list_vols] *)
Definition pool_list_vols (verbose human : bool) : M (list (string * pyval)) :=
  w <~ get ;;
  list_vols_loop (dict_keys (volumes (self w))) verbose human [].

(** [DirectoryPool.create_volume] *)
Definition create_volume (vol_name vol_format : string) : M string :=
  a <~ is_pool_active ;;
  e <~ (if a then is_volumes_existed vol_name else ret false) ;;
  if e then
    v <~ volumes_getitem vol_name ;; ret (vol_url v)
  else
    url <~ _format_as_url vol_name ;;
    a <~ is_pool_active ;;
    (if a then
       p <~ _format_vol_path vol_name ;;
       volumes_setslot vol_name
         (fun v => {| vol_path := p; vol_url := vol_url v;
                      vol_json := vol_json v |}) ;;;
       u <~ _format_as_url vol_name ;;
       volumes_setslot vol_name
         (fun v => {| vol_path := vol_path v; vol_url := u;
                      vol_json := vol_json v |}) ;;;
       v <~ volumes_getitem vol_name ;;
       j <~ _format_as_json (vol_path v) vol_format ;;
       volumes_setslot vol_name
         (fun v => {| vol_path := vol_path v; vol_url := vol_url v;
                      vol_json := j |})
     else ret tt) ;;;
    ret url.

(** [DirectoryPool.delete_volume] *)
Definition delete_volume (vol_name : string) : M unit :=
  a <~ is_pool_active ;;
  if negb a then
    w <~ get ;;
    raise (DirectoryPoolInactiveError (name (self w)) "delete_volume")
  else
    w <~ get ;;
    if negb (dict_contains vol_name (volumes (self w))) then
      raise (PoolVolNotExistError (name (self w)) vol_name)
    else
      v <~ volumes_getitem vol_name ;;
      let vol_path := vol_path v in
      w <~ get ;;
      (if os_path_isfile (fs w) vol_path
       then modify (fun w => set_fs (os_remove (fs w) vol_path) w)
       else ret tt) ;;;
      modify (fun w => set_volumes (dict_del vol_name (volumes (self w))) w).

(** [DirectoryPool.clone_volume]: the body ends after the check. *)
Definition clone_volume (source_vol dest_vol : string) : M unit :=
  a <~ is_pool_active ;;
  if negb a then
    w <~ get ;;
    raise (DirectoryPoolInactiveError (name (self w)) "clone_volume")
  else ret tt.

(** ** The attach descriptor as a JSON object

    What the specification says the descriptor is, as the object it
    denotes, with the rendering of such an object: members separated by
    a comma and a space, keys and string values between double quotes. *)

#[warnings="-register-all"] Inductive json : Type :=
| JStr (s : string)
| JObj (members : list (string * json)).

Fixpoint show_json (j : json) : string :=
  match j with
  | JStr s => dq +:+ s +:+ dq
  | JObj ms =>
      "{" +:+
      (fix members (first : bool) (ms : list (string * json)) : string :=
         match ms with
         | [] => "}"
         | (k, v) :: ms' =>
             (if first then EmptyString else ", ")
             +:+ dq +:+ k +:+ dq +:+ ": " +:+ show_json v
             +:+ members false ms'
         end) true ms
  end.

(** The descriptor of the specification:
    a driver-chain object naming the format and the file path. *)
Definition attach_descriptor (format path : string) : json :=
  JObj [("driver", JStr format);
        ("file", JObj [("driver", JStr "file"); ("filename", JStr path)])].

(** The number of entries of a dict under the key [k]. *)
Definition entries_for {V : Type} (k : string) (d : list (string * V)) : nat :=
  length (filter (fun kv => String.eqb k (fst kv) = true) d).

(** The entry read by [self.volumes[n]]: the tracked one, or the
    default that the lookup creates. *)
Definition entry_or_default (n : string) (w : world) : volume :=
  match dict_get n (volumes (self w)) with
  | Some v => v
  | None => default_volume
  end.

(** The keys of a config are all [path], and there is at least one:
    the key set is exactly [{"path"}]. *)
Definition only_path (cfg : list (string * string)) : Prop :=
  list_to_set (dict_keys cfg) = ({[ "path" ]} : gset string).

(** ** Worlds used as concrete inputs *)

(** [DirectoryPool('p1', {'path': '/tmp/xyz'})], as constructed. *)
Definition p1_fresh : DirectoryPool :=
  {| name := "p1"; uuid := 7%N; config := {| path := "/tmp/xyz" |};
     source_list := []; target_list := []; active := false; volumes := [] |}.

(** The same pool with its [active] flag set, as [pool_start] leaves
    it: the configured path is already absolute and normalised. *)
Definition p1_active : DirectoryPool :=
  {| name := "p1"; uuid := 7%N; config := {| path := "/tmp/xyz" |};
     source_list := []; target_list := []; active := true; volumes := [] |}.

(** A filesystem holding the directory of the pool and nothing in it. *)
Definition fs_empty_dir : gmap string fnode :=
  {[ "/tmp" := Directory; "/tmp/xyz" := Directory ]}.

Definition w_fresh : world := {| self := p1_fresh; fs := fs_empty_dir |}.
Definition w_active : world := {| self := p1_active; fs := fs_empty_dir |}.

(** An active pool tracking the volume [a], whose backing file exists. *)
Definition a_stat : stat_result :=
  {| st_mode := 33188; st_uid := 0; st_gid := 0; st_size := 4;
     st_blocks := Some 8; st_atime := S754_zero false;
     st_mtime := S754_zero false; st_ctime := S754_zero false |}.

Definition w_with_a : world :=
  {| self :=
       {| name := "p1"; uuid := 7%N; config := {| path := "/tmp/xyz" |};
          source_list := []; target_list := []; active := true;
          volumes :=
            [("a", {| vol_path := "/tmp/xyz/a"; vol_url := "file:/tmp/xyz/a";
                      vol_json :=
                        show_json (attach_descriptor "qcow2" "/tmp/xyz/a") |})]
       |};
     fs := <["/tmp/xyz/a" := RegularFile a_stat "data"]> fs_empty_dir |}.

(** ** Paths and directories

    The functions of [os.path] and [os] behind [pool_start].  Paths are
    looked up in the filesystem as they are written: the model does not
    identify two spellings of one file; the root directory always
    exists. *)

(** [s.split(c)] for a one-character separator: the segments between
    the occurrences of [c]; never empty. *)
Fixpoint split_char (c : ascii) (s : string) : list string :=
  match s with
  | EmptyString => [EmptyString]
  | String a s' =>
      if Ascii.eqb a c then EmptyString :: split_char c s'
      else match split_char c s' with
           | [] => [String a EmptyString]
           | seg :: segs => String a seg :: segs
           end
  end.

(** [sep.join(l)] *)
Fixpoint join_str (sep : string) (l : list string) : string :=
  match l with
  | [] => EmptyString
  | [x] => x
  | x :: l' => x +:+ sep +:+ join_str sep l'
  end.

(** One round of the component loop of [posixpath.normpath]; [stack]
    is [new_comps], last component first. *)
Definition normpath_step (initial_slashes : nat) (stack : list string)
    (comp : string) : list string :=
  if String.eqb comp EmptyString || String.eqb comp "." then stack
  else if negb (String.eqb comp "..")
          || (Nat.eqb initial_slashes 0 && match stack with [] => true | _ => false end)
          || match stack with top :: _ => String.eqb top ".." | [] => false end
  then comp :: stack
  else match stack with
       | _ :: stack' => stack'
       | [] => stack
       end.

(** [posixpath.normpath(path)] *)
Definition normpath (path : string) : string :=
  if String.eqb path EmptyString then "."
  else
    let initial_slashes :=
      if startswith "/" path then
        if startswith "//" path && negb (startswith "///" path) then 2%nat
        else 1%nat
      else 0%nat in
    let comps := split_char "/" path in
    let new_comps := fold_left (normpath_step initial_slashes) comps [] in
    let path := join_str "/" (rev new_comps) in
    let path :=
      match initial_slashes with
      | O => path
      | S O => "/" +:+ path
      | _ => "//" +:+ path
      end in
    if String.eqb path EmptyString then "." else path.

(** [os.path.abspath(path)], with [cwd] the value of [os.getcwd()]. *)
Definition abspath (cwd path : string) : string :=
  normpath (if startswith "/" path then path else os_path_join cwd path).

(** The directory in which [os.mkdir(p)] makes its entry, for an
    absolute, normalised [p]: the text before the last slash, the root
    for a path directly under it. *)
Fixpoint parent_dir_aux (s : string) : option string :=
  match s with
  | EmptyString => None
  | String a s' =>
      match parent_dir_aux s' with
      | Some d => Some (String a d)
      | None => if Ascii.eqb a "/" then Some EmptyString else None
      end
  end.

Definition parent_dir (p : string) : string :=
  match parent_dir_aux p with
  | Some EmptyString => "/"
  | Some d => d
  | None => EmptyString
  end.

(** [os.path.isdir(p)] *)
Definition os_path_isdir (fs : gmap string fnode) (p : string) : bool :=
  String.eqb p "/" ||
  match fs !! p with
  | Some Directory => true
  | _ => false
  end.

(** [os.path.exists(p)] *)
Definition os_path_exists (fs : gmap string fnode) (p : string) : bool :=
  String.eqb p "/" ||
  match fs !! p with
  | Some _ => true
  | None => false
  end.

(** [os.mkdir(p)]: one level; [OSError] (as [FileExistsError]) when
    something is at [p] already, and (as [FileNotFoundError] or
    [NotADirectoryError]) when the parent is not a directory. *)
Definition os_mkdir (p : string) : M unit :=
  fun w =>
    if os_path_exists (fs w) p then (Raise OSError, w)
    else if os_path_isdir (fs w) (parent_dir p)
    then (Ret tt, set_fs (<[p := Directory]> (fs w)) w)
    else (Raise OSError, w).

(** ** Starting a pool and reading its statistics *)

Definition set_config (c : pool_config) (w : world) : world :=
  {| self := {| name := name (self w); uuid := uuid (self w);
                config := c;
                source_list := source_list (self w);
                target_list := target_list (self w);
                active := active (self w);
                volumes := volumes (self w) |};
     fs := fs w |}.

Definition set_active (a : bool) (w : world) : world :=
  {| self := {| name := name (self w); uuid := uuid (self w);
                config := config (self w);
                source_list := source_list (self w);
                target_list := target_list (self w);
                active := a;
                volumes := volumes (self w) |};
     fs := fs w |}.

(** [DirectoryPool._pool_build]; [cwd] is the working directory of
    the process, which [os.path.abspath] reads. *)
Definition _pool_build (cwd : string) : M unit :=
  w <~ get ;;
  let path := abspath cwd (path (config (self w))) in
  (if negb (os_path_isdir (fs w) path) then os_mkdir path else ret tt) ;;;
  modify (set_config {| path := path |}).

(** [DirectoryPool.pool_start] *)
Definition pool_start (cwd : string) : M unit :=
  _pool_build cwd ;;;
  modify (set_active true).

(** The fields of the result of [os.statvfs] that [pool_stat] reads. *)
Record statvfs_result : Type := {
  f_bsize : Z;
  f_blocks : Z;
  f_bavail : Z
}.

(** The dict comprehension of [pool_stat]: the values are formatted in
    the order of the keys. *)
Fixpoint format_stat_dict (stat_dict : list (string * Z))
  : outcome (list (string * pyval)) :=
  match stat_dict with
  | [] => Ret []
  | (k, z) :: rest =>
      match format_size_human_readable z true with
      | Raise e => Raise e
      | Ret text =>
          match format_stat_dict rest with
          | Raise e => Raise e
          | Ret d => Ret ((k, VStr text) :: d)
          end
      end
  end.

(** [DirectoryPool.pool_stat]; [os_statvfs] is the system call, as a
    function of the path it is given. *)
Definition pool_stat (os_statvfs : string -> outcome statvfs_result)
    (human : bool) : M (list (string * pyval)) :=
  w <~ get ;;
  stat <~ lift (os_statvfs (path (config (self w)))) ;;
  let stat_dict :=
    [("capacity", f_bsize stat * f_blocks stat);
     ("available", f_bsize stat * f_bavail stat);
     ("allocation", f_bsize stat * (f_blocks stat - f_bavail stat))] in
  if human then lift (format_stat_dict stat_dict)
  else ret (map (fun kz => (fst kz, VInt (snd kz))) stat_dict).

(** [DirectoryPool.pool_info]; the UUID is shown by its value. *)
Definition pool_info (os_statvfs : string -> outcome statvfs_result)
  : M (list (string * pyval)) :=
  a <~ is_pool_active ;;
  if negb a then
    w <~ get ;;
    raise (DirectoryPoolInactiveError (name (self w)) "pool_info")
  else
    info_dict <~ pool_stat os_statvfs true ;;
    w <~ get ;;
    let info_dict := dict_set "name" (VStr (name (self w))) info_dict in
    let info_dict := dict_set "uuid" (VInt (Z.of_N (uuid (self w)))) info_dict in
    let info_dict :=
      dict_set "config" (VDict [("path", VStr (path (config (self w))))])
        info_dict in
    let info_dict :=
      dict_set "state"
        (VStr (if active (self w) then "active" else "inactive")) info_dict in
    ret info_dict.

(** ** Sequences of calls

    A call of a method of the pool, or a change made to the filesystem
    from outside between two calls; [perform] keeps the world that the
    call leaves, whether it returned or raised. *)

Inductive call : Type :=
| call_pool_start (cwd : string)
| call_pool_destroy
| call_pool_delete
| call_pool_stat (os_statvfs : string -> outcome statvfs_result) (human : bool)
| call_pool_info (os_statvfs : string -> outcome statvfs_result)
| call_is_pool_active
| call_is_volumes_existed (vol_name : string)
| call_get_vol_info (vol_name : string) (verbose human : bool)
| call_pool_list_vols (verbose human : bool)
| call_create_volume (vol_name vol_format : string)
| call_delete_volume (vol_name : string)
| call_clone_volume (source_vol dest_vol : string)
| outside_change (fs' : gmap string fnode).

Definition perform (c : call) (w : world) : world :=
  match c with
  | call_pool_start cwd => snd (pool_start cwd w)
  | call_pool_destroy => snd (pool_destroy w)
  | call_pool_delete => snd (pool_delete w)
  | call_pool_stat os_statvfs human => snd (pool_stat os_statvfs human w)
  | call_pool_info os_statvfs => snd (pool_info os_statvfs w)
  | call_is_pool_active => snd (is_pool_active w)
  | call_is_volumes_existed n => snd (is_volumes_existed n w)
  | call_get_vol_info n verbose human => snd (get_vol_info n verbose human w)
  | call_pool_list_vols verbose human => snd (pool_list_vols verbose human w)
  | call_create_volume n f => snd (create_volume n f w)
  | call_delete_volume n => snd (delete_volume n w)
  | call_clone_volume s d => snd (clone_volume s d w)
  | outside_change fs' => set_fs fs' w
  end.

Definition perform_all (cs : list call) (w : world) : world :=
  fold_left (fun w c => perform c w) cs w.

(** An entry of [self.volumes] as [create_volume] writes it for some
    format: the locator and the descriptor are those of its path. *)
Definition coherent (v : volume) : Prop :=
  vol_url v = "file:" +:+ vol_path v /\
  exists f, vol_json v = show_json (attach_descriptor f (vol_path v)).

(** A path component that [normpath] keeps in an absolute path. *)
Definition clean_comp (c : string) : Prop :=
  c <> EmptyString /\ c <> "." /\ c <> ".." /\ has_char "/" c = false.

(** An absolute path in normal form: one slash, or two, followed by
    kept components separated by single slashes. *)
Definition normal_abs (r : string) : Prop :=
  exists l, Forall clean_comp l /\
    (r = "/" +:+ join_str "/" l \/ r = "//" +:+ join_str "/" l).

(** Calls as a running program can make them: the working directory it
    passes for [os.getcwd()] is an absolute path. *)
Definition possible_call (c : call) : Prop :=
  match c with
  | call_pool_start cwd => startswith "/" cwd = true
  | _ => True
  end.

(** What holds of the entries of [self.volumes] in every state a pool
    goes through: an entry is the empty placeholder left by a lookup,
    or it was written by [create_volume] on the active pool, under the
    configured directory. *)
Definition entries_ok (w : world) : Prop :=
  forall n v, dict_get n (volumes (self w)) = Some v ->
    v = default_volume \/
    (active (self w) = true /\
     vol_path v = os_path_join (path (config (self w))) n /\
     coherent v).

Definition pool_inv (w : world) : Prop :=
  NoDup (dict_keys (volumes (self w))) /\
  (active (self w) = true -> normal_abs (path (config (self w)))) /\
  entries_ok w.

(** What [pool_list_vols()] reports for an entry: the name, with the
    dict holding its path. *)
Definition listed (nv : string * volume) : string * pyval :=
  (fst nv, VDict [("path", VStr (vol_path (snd nv)))]).

(** Equality of two outcomes of the formatter, as a test. *)
Definition outcome_eqb (a b : outcome string) : bool :=
  match a, b with
  | Ret x, Ret y => String.eqb x y
  | _, _ => false
  end.

(** The text expected for [k] units of rank [i]. *)
Definition whole_units (binary : bool) (k : Z) (i : nat) : string :=
  str_of_Z k +:+ " " +:+ nth i (suffixes binary) EmptyString.

(** The formatter prints [k * base^i] as [k] units of rank [i], for
    every [k] from 1 below the base and every rank up to [imax]. *)
Definition whole_units_checked (binary : bool) (imax : nat) : bool :=
  forallb
    (fun i =>
       forallb
         (fun k =>
            outcome_eqb
              (format_size_human_readable
                 (Z.of_nat k * size_base binary ^ Z.of_nat i) binary)
              (Ret (whole_units binary (Z.of_nat k) i)))
         (seq 1 (Z.to_nat (size_base binary) - 1)))
    (seq 0 (S imax)).

(** ** [virttest/qemu_devices/utils.py]: the parameter helpers *)

(** [s.split(c, 1)]: the text before the first [c], and the text after
    it when there is one. *)
Fixpoint split_once (c : ascii) (s : string) : string * option string :=
  match s with
  | EmptyString => (EmptyString, None)
  | String a s' =>
      if Ascii.eqb a c then (EmptyString, Some s')
      else let '(h, t) := split_once c s' in (String a h, t)
  end.

(** [dict(...)] over the split items, on top of the entries [d] bound
    so far: an item without [=] is a sequence of length one, which
    [dict] refuses with [ValueError]. *)
Fixpoint dict_of_items (items : list string) (d : list (string * string))
  : outcome (list (string * string)) :=
  match items with
  | [] => Ret d
  | item :: rest =>
      match split_once "=" item with
      | (k, Some v) => dict_of_items rest (dict_set k v d)
      | (_, None) => Raise ValueError
      end
  end.

(** [_parse_extra_params] *)
Definition _parse_extra_params (extra_params : string)
  : outcome (list (string * string)) :=
  dict_of_items
    (List.filter (fun item => negb (String.eqb item EmptyString))
       (split_char "," extra_params)) [].

(** The text of one parameter, and of a dict of parameters. *)
Definition param_item (kv : string * string) : string :=
  fst kv +:+ "=" +:+ snd kv.

Definition render_params (d : list (string * string)) : string :=
  join_str "," (map param_item d).

(** A key holds neither [=] nor a comma, a value no comma. *)
Definition plain_param (kv : string * string) : Prop :=
  has_char "=" (fst kv) = false /\ has_char "," (fst kv) = false /\
  has_char "," (snd kv) = false.

(** * Properties *)

(** ** Dictionaries *)

Section DictFacts.
Context {V : Type}.
Implicit Types (d : list (string * V)) (k : string) (v : V).

Lemma dict_get_set_eq d k v : dict_get k (dict_set k v d) = Some v.
Proof.
  induction d as [|[k' v'] d IH]; simpl.
  - now rewrite String.eqb_refl.
  - destruct (String.eqb k k') eqn:E; simpl; rewrite E; auto.
Qed.

Lemma dict_get_set_ne d k k' v :
  k <> k' -> dict_get k' (dict_set k v d) = dict_get k' d.
Proof.
  intros Hne. induction d as [|[k0 v0] d IH]; simpl.
  - destruct (String.eqb k' k) eqn:E; auto.
    apply String.eqb_eq in E. congruence.
  - destruct (String.eqb k k0) eqn:E; simpl.
    + apply String.eqb_eq in E. subst k0.
      destruct (String.eqb k' k) eqn:E'; auto.
      apply String.eqb_eq in E'. congruence.
    + now rewrite IH.
Qed.

Lemma dict_set_set d k v v' :
  dict_set k v' (dict_set k v d) = dict_set k v' d.
Proof.
  induction d as [|[k0 v0] d IH]; simpl.
  - now rewrite String.eqb_refl.
  - destruct (String.eqb k k0) eqn:E; simpl; rewrite E; auto.
    now rewrite IH.
Qed.

Lemma dict_set_same d k v :
  dict_get k d = Some v -> dict_set k v d = d.
Proof.
  induction d as [|[k0 v0] d IH]; simpl; [discriminate|].
  destruct (String.eqb k k0) eqn:E.
  - intros [= ->]. reflexivity.
  - intros H. now rewrite IH.
Qed.

Lemma dict_set_absent d k v :
  dict_get k d = None -> dict_set k v d = (d ++ [(k, v)])%list.
Proof.
  induction d as [|[k0 v0] d IH]; simpl; auto.
  destruct (String.eqb k k0); [discriminate|].
  intros H. now rewrite IH.
Qed.

Lemma dict_keys_set_present d k v :
  dict_contains k d = true -> dict_keys (dict_set k v d) = dict_keys d.
Proof.
  unfold dict_contains, dict_keys.
  induction d as [|[k0 v0] d IH]; simpl; [discriminate|].
  destruct (String.eqb k k0) eqn:E; simpl; auto.
  intros H. now rewrite IH.
Qed.

Lemma dict_contains_keys d k :
  dict_contains k d = true <-> k ∈ dict_keys d.
Proof.
  unfold dict_contains, dict_keys.
  induction d as [|[k0 v0] d IH]; simpl.
  - rewrite elem_of_nil. split; [discriminate | tauto].
  - rewrite elem_of_cons. destruct (String.eqb k k0) eqn:E.
    + apply String.eqb_eq in E. subst. tauto.
    + apply String.eqb_neq in E. rewrite IH. tauto.
Qed.

Lemma dict_get_None_keys d k :
  dict_get k d = None <-> k ∉ dict_keys d.
Proof.
  rewrite <- dict_contains_keys. unfold dict_contains.
  destruct (dict_get k d); split; intros; congruence.
Qed.

Lemma dict_contains_false d k :
  dict_contains k d = false <-> dict_get k d = None.
Proof.
  unfold dict_contains. destruct (dict_get k d); split; congruence.
Qed.

Lemma dict_get_del_ne d k k' :
  k <> k' -> dict_get k' (dict_del k d) = dict_get k' d.
Proof.
  intros Hne. induction d as [|[k0 v0] d IH]; simpl; auto.
  destruct (String.eqb k k0) eqn:E; simpl.
  - apply String.eqb_eq in E. subst k0.
    destruct (String.eqb k' k) eqn:E'; auto.
    apply String.eqb_eq in E'. congruence.
  - now rewrite IH.
Qed.

Lemma dict_get_del_eq d k :
  NoDup (dict_keys d) -> dict_get k (dict_del k d) = None.
Proof.
  induction d as [|[k0 v0] d IH]; simpl; auto.
  rewrite NoDup_cons. intros [Hnotin Hnd].
  destruct (String.eqb k k0) eqn:E; simpl.
  - apply String.eqb_eq in E. subst k0.
    now apply dict_get_None_keys.
  - rewrite E. auto.
Qed.

Lemma dict_keys_del_incl d k x :
  x ∈ dict_keys (dict_del k d) -> x ∈ dict_keys d.
Proof.
  induction d as [|[k0 v0] d IH]; simpl; auto.
  destruct (String.eqb k k0); simpl; rewrite !elem_of_cons; tauto.
Qed.

Lemma dict_del_NoDup d k :
  NoDup (dict_keys d) -> NoDup (dict_keys (dict_del k d)).
Proof.
  induction d as [|[k0 v0] d IH]; simpl; auto.
  rewrite NoDup_cons. intros [Hnotin Hnd].
  destruct (String.eqb k k0); simpl; auto.
  apply NoDup_cons. split; auto.
  intros Hin. apply Hnotin. now apply dict_keys_del_incl in Hin.
Qed.

Lemma dict_set_NoDup d k v :
  NoDup (dict_keys d) -> NoDup (dict_keys (dict_set k v d)).
Proof.
  intros Hnd. destruct (dict_contains k d) eqn:E.
  - now rewrite dict_keys_set_present.
  - apply dict_contains_false in E.
    rewrite dict_set_absent by exact E.
    unfold dict_keys. rewrite map_app. simpl.
    apply dict_get_None_keys in E.
    apply NoDup_app. split; [exact Hnd|]. split.
    + intros x Hx Hx'. apply list_elem_of_singleton in Hx'. now subst.
    + apply NoDup_singleton.
Qed.

Lemma entries_for_absent d k :
  k ∉ dict_keys d -> entries_for k d = O.
Proof.
  unfold entries_for.
  induction d as [|[k0 v0] d IH]; simpl; auto.
  rewrite not_elem_of_cons. intros [Hne Hn]. rewrite filter_cons. simpl.
  destruct (decide (String.eqb k k0 = true)) as [E|E].
  - apply String.eqb_eq in E. subst. tauto.
  - now apply IH.
Qed.

Lemma entries_for_NoDup d k :
  NoDup (dict_keys d) -> dict_contains k d = true ->
  entries_for k d = 1%nat.
Proof.
  unfold entries_for.
  induction d as [|[k0 v0] d IH]; simpl.
  - intros _. discriminate.
  - rewrite NoDup_cons. intros [Hnotin Hnd].
    unfold dict_contains; simpl. rewrite filter_cons. simpl.
    destruct (decide (String.eqb k k0 = true)) as [E|E].
    + intros _. apply String.eqb_eq in E. subst k0. simpl.
      f_equal. now apply entries_for_absent.
    + apply not_true_is_false in E. rewrite E. intros H.
      now apply IH.
Qed.

End DictFacts.

(** ** Strings *)

Lemma append_assoc (a b c : string) : (a +:+ b) +:+ c = a +:+ (b +:+ c).
Proof. induction a as [|x a IH]; simpl; congruence. Qed.

(** ** Running the operations *)

(** Unfolds the plumbing of a computation and the projections of the
    world it runs in, leaving the dictionary operations folded. *)
Ltac run :=
  cbv beta iota zeta delta
    [bind ret raise get modify lift is_pool_active is_volumes_existed
     _format_vol_path _format_as_url _format_as_json
     pool_destroy pool_delete PoolBase.pool_destroy PoolBase.pool_delete
     self fs name uuid config source_list target_list active volumes path
     set_volumes set_fs negb andb fst snd].

(** Names the fields of a world. *)
Ltac open_world w :=
  let nm := fresh "nm" in
  let uu := fresh "uu" in
  let D := fresh "D" in
  let sl := fresh "sl" in
  let tl := fresh "tl" in
  let vols := fresh "vols" in
  let fs0 := fresh "fs0" in
  destruct w as [[nm uu [D] sl tl act vols] fs0]; simpl in *.

#[local] Arguments volumes_setslot : simpl never.
#[local] Arguments volumes_getitem : simpl never.
#[local] Arguments os_path_join : simpl never.

Lemma set_volumes_id w : set_volumes (volumes (self w)) w = w.
Proof. destruct w as [[] ?]; reflexivity. Qed.

Lemma volumes_getitem_present w n v :
  dict_get n (volumes (self w)) = Some v ->
  volumes_getitem n w = (Ret v, w).
Proof.
  intros H. unfold volumes_getitem, defaultdict_getitem. rewrite H.
  now rewrite set_volumes_id.
Qed.

Lemma volumes_getitem_absent w n :
  dict_get n (volumes (self w)) = None ->
  volumes_getitem n w =
    (Ret default_volume,
     set_volumes (dict_set n default_volume (volumes (self w))) w).
Proof.
  intros H. unfold volumes_getitem, defaultdict_getitem. now rewrite H.
Qed.

Lemma volumes_setslot_run w n f :
  volumes_setslot n f w =
    (Ret tt,
     set_volumes (dict_set n (f (entry_or_default n w)) (volumes (self w))) w).
Proof.
  unfold volumes_setslot, bind, modify, entry_or_default.
  destruct (dict_get n (volumes (self w))) as [v|] eqn:E.
  - now rewrite (volumes_getitem_present _ _ _ E).
  - rewrite (volumes_getitem_absent _ _ E). simpl.
    now rewrite dict_set_set.
Qed.

(** The template, filled in, is the text of the descriptor object. *)
Lemma pct_s_json_template f p :
  pct_s json_template [f; p] = Ret (show_json (attach_descriptor f p)).
Proof.
  unfold json_template, attach_descriptor, dq. simpl.
  rewrite !append_assoc. reflexivity.
Qed.

Lemma create_volume_active_untracked w n f :
  active (self w) = true ->
  dict_get n (volumes (self w)) = None ->
  let p := os_path_join (path (config (self w))) n in
  create_volume n f w =
    (Ret ("file:" +:+ p),
     set_volumes
       (volumes (self w) ++
        [(n, {| vol_path := p; vol_url := "file:" +:+ p;
                vol_json := show_json (attach_descriptor f p) |})])%list w).
Proof.
  intros Ha Hn p. subst p. open_world w. subst act.
  apply dict_contains_false in Hn as Hc.
  unfold create_volume. run. rewrite Hc. run.
  rewrite volumes_setslot_run. unfold entry_or_default. run. rewrite Hn.
  rewrite volumes_setslot_run. unfold entry_or_default. run.
  rewrite dict_get_set_eq, dict_set_set.
  erewrite volumes_getitem_present by (run; apply dict_get_set_eq).
  run. rewrite pct_s_json_template.
  rewrite volumes_setslot_run. unfold entry_or_default. run.
  rewrite dict_get_set_eq, dict_set_set.
  rewrite (dict_set_absent _ _ _ Hn). reflexivity.
Qed.

Lemma create_volume_active_tracked w n f v :
  active (self w) = true ->
  dict_get n (volumes (self w)) = Some v ->
  create_volume n f w = (Ret (vol_url v), w).
Proof.
  intros Ha Hn.
  assert (Hc : dict_contains n (volumes (self w)) = true).
  { unfold dict_contains. now rewrite Hn. }
  open_world w. subst act.
  unfold create_volume. run. rewrite Hc.
  erewrite volumes_getitem_present by (run; exact Hn). reflexivity.
Qed.

Lemma create_volume_inactive w n f :
  active (self w) = false ->
  create_volume n f w =
    (Ret ("file:" +:+ os_path_join (path (config (self w))) n), w).
Proof.
  intros Ha. open_world w. subst act.
  unfold create_volume. run. reflexivity.
Qed.

Lemma os_path_join_plain (D n : string) :
  D <> EmptyString -> endswith_char "/" D = false ->
  startswith "/" n = false ->
  os_path_join D n = D +:+ "/" +:+ n.
Proof.
  intros HD He Hn. unfold os_path_join. rewrite Hn, He.
  apply String.eqb_neq in HD. now rewrite HD.
Qed.

Example DirectoryPool_init_p1 :
  DirectoryPool_init "p1" [("path", "/tmp/xyz")] 7%N = Ret p1_fresh.
Proof. reflexivity. Qed.

(** ** Creation *)

(** The descriptor of a qcow2 volume at [/tmp/xyz/a], character by
    character. *)
Example attach_descriptor_text :
  show_json (attach_descriptor "qcow2" "/tmp/xyz/a") =
    "{" +:+ dq +:+ "driver" +:+ dq +:+ ": " +:+ dq +:+ "qcow2" +:+ dq
    +:+ ", " +:+ dq +:+ "file" +:+ dq +:+ ": {"
    +:+ dq +:+ "driver" +:+ dq +:+ ": " +:+ dq +:+ "file" +:+ dq
    +:+ ", " +:+ dq +:+ "filename" +:+ dq +:+ ": "
    +:+ dq +:+ "/tmp/xyz/a" +:+ dq +:+ "}}".
Proof. reflexivity. Qed.



(** C7: on an active pool, [create_volume(n, f)] followed by
    [create_volume(n, f')] returns the same locator both times; the
    second call leaves the pool and the filesystem as the first call
    left them, whatever its format argument, and the volumes hold
    exactly one entry for [n]. *)
Theorem create_volume_idempotent (w : world) (n f f' : string) :
  active (self w) = true ->
  NoDup (dict_keys (volumes (self w))) ->
  exists u w1,
    create_volume n f w = (Ret u, w1) /\
    create_volume n f' w1 = (Ret u, w1) /\
    entries_for n (volumes (self w1)) = 1%nat.
Proof.
  intros Ha Hnd.
  destruct (dict_get n (volumes (self w))) as [v|] eqn:Hn.
  - exists (vol_url v), w.
    rewrite !(create_volume_active_tracked _ _ _ _ Ha Hn).
    repeat split. apply entries_for_NoDup; [exact Hnd|].
    unfold dict_contains. now rewrite Hn.
  - rewrite (create_volume_active_untracked _ _ f Ha Hn).
    rewrite <- (dict_set_absent _ _ _ Hn).
    set (p := os_path_join (path (config (self w))) n).
    set (v := {| vol_path := p; vol_url := "file:" +:+ p;
                 vol_json := show_json (attach_descriptor f p) |}).
    set (w1 := set_volumes (dict_set n v (volumes (self w))) w).
    assert (Hn1 : dict_get n (volumes (self w1)) = Some v)
      by apply dict_get_set_eq.
    exists ("file:" +:+ p), w1. split; [reflexivity|]. split.
    + now rewrite (create_volume_active_tracked w1 n f' v Ha Hn1).
    + apply entries_for_NoDup.
      * now apply dict_set_NoDup.
      * unfold dict_contains. now rewrite Hn1.
Qed.

Lemma create_volume_idempotent_witness :
  exists u w1,
    create_volume "a" "qcow2" w_active = (Ret u, w1) /\
    create_volume "a" "raw" w1 = (Ret u, w1) /\
    entries_for "a" (volumes (self w1)) = 1%nat.
Proof.
  apply (create_volume_idempotent w_active "a" "qcow2" "raw" eq_refl).
  apply NoDup_nil_2.
Defined.

(** C2, as the code has it: on a pool whose [active] flag is false,
    [create_volume(n, f)] raises nothing; it returns the locator
    ["file:" + D/n] computed from the configured directory [D] and
    leaves the pool, its volumes included, and the filesystem
    unchanged. *)
Theorem create_volume_inactive_returns (w : world) (n f : string) :
  active (self w) = false ->
  create_volume n f w =
    (Ret ("file:" +:+ os_path_join (path (config (self w))) n), w) /\
  forall e, fst (create_volume n f w) <> Raise e.
Proof.
  intros Ha. rewrite (create_volume_inactive _ n f Ha).
  split; [reflexivity | discriminate].
Qed.

Lemma create_volume_inactive_returns_witness :
  create_volume "a" "qcow2" w_fresh = (Ret "file:/tmp/xyz/a", w_fresh).
Proof.
  exact (proj1 (create_volume_inactive_returns w_fresh "a" "qcow2" eq_refl)).
Defined.

(** C2 as stated fails: on the freshly constructed, inactive pool [p1]
    the call returns a locator instead of raising the inactive-pool
    error. *)
Lemma create_volume_inactive_no_error :
  active (self w_fresh) = false /\
  fst (create_volume "a" "qcow2" w_fresh) = Ret "file:/tmp/xyz/a" /\
  fst (create_volume "a" "qcow2" w_fresh)
    <> Raise (DirectoryPoolInactiveError "p1" "create_volume").
Proof.
  split; [reflexivity|]. split; [reflexivity|].
  intros H. vm_compute in H. discriminate H.
Qed.

(** ** Deactivation *)

(** [pool_destroy()] on a directory pool is the method of the abstract
    base: it raises [NotImplementedError] and changes nothing. *)
Lemma pool_destroy_not_implemented (w : world) :
  pool_destroy w = (Raise NotImplementedError, w).
Proof. reflexivity. Qed.

(** C4 at a concrete input: [pool_destroy()] on the active pool [p1]
    raises [NotImplementedError], and the pool is still active
    afterwards; nothing else changed either. *)
Theorem pool_destroy_stays_active :
  active (self w_active) = true /\
  pool_destroy w_active = (Raise NotImplementedError, w_active) /\
  active (self (snd (pool_destroy w_active))) = true.
Proof. repeat split. Qed.

(** ** Cloning *)

Lemma clone_volume_active w s d :
  active (self w) = true -> clone_volume s d w = (Ret tt, w).
Proof.
  intros Ha. open_world w. subst act. unfold clone_volume. run. reflexivity.
Qed.

Lemma clone_volume_inactive w s d :
  active (self w) = false ->
  clone_volume s d w =
    (Raise (DirectoryPoolInactiveError (name (self w)) "clone_volume"), w).
Proof.
  intros Ha. open_world w. subst act. unfold clone_volume. run. reflexivity.
Qed.

Example w_with_a_reached :
  snd (create_volume "a" "qcow2" w_active) =
    set_fs fs_empty_dir w_with_a.
Proof. reflexivity. Qed.

(** C5 at a concrete input: on the active pool tracking [a], with the
    file of [a] present, [clone_volume("a", "b")] returns [None] and
    leaves everything as it was: [b] is not tracked and no file exists
    at its path. *)
Theorem clone_volume_copies_nothing :
  clone_volume "a" "b" w_with_a = (Ret tt, w_with_a) /\
  os_path_isfile (fs w_with_a) "/tmp/xyz/a" = true /\
  dict_contains "a" (volumes (self w_with_a)) = true /\
  dict_contains "b" (volumes (self (snd (clone_volume "a" "b" w_with_a))))
    = false /\
  os_path_isfile (fs (snd (clone_volume "a" "b" w_with_a))) "/tmp/xyz/b"
    = false.
Proof. repeat split. Qed.

(** ** Introspection *)

Lemma is_volumes_existed_pure w n :
  is_volumes_existed n w = (Ret (dict_contains n (volumes (self w))), w).
Proof. reflexivity. Qed.

Lemma get_vol_info_tracked_missing w n v verbose human :
  dict_get n (volumes (self w)) = Some v ->
  os_path_isfile (fs w) (vol_path v) = false ->
  get_vol_info n verbose human w =
    (Raise (PoolVolNotExistError (name (self w)) n), w).
Proof.
  intros Hn Hf. unfold get_vol_info, bind at 1.
  rewrite (volumes_getitem_present _ _ _ Hn).
  open_world w. run. now rewrite Hf.
Qed.

Lemma get_vol_info_tracked_present w n v human :
  dict_get n (volumes (self w)) = Some v ->
  os_path_isfile (fs w) (vol_path v) = true ->
  get_vol_info n false human w = (Ret [("path", VStr (vol_path v))], w).
Proof.
  intros Hn Hf. unfold get_vol_info, bind at 1.
  rewrite (volumes_getitem_present _ _ _ Hn).
  open_world w. run. now rewrite Hf.
Qed.

Lemma get_vol_info_tracked_frame w n v verbose human :
  dict_get n (volumes (self w)) = Some v ->
  snd (get_vol_info n verbose human w) = w.
Proof.
  intros Hn. unfold get_vol_info, bind at 1.
  rewrite (volumes_getitem_present _ _ _ Hn).
  open_world w. run.
  destruct (os_path_isfile fs0 (vol_path v)); [|reflexivity].
  destruct verbose; [|reflexivity].
  destruct (os_stat fs0 (vol_path v)); reflexivity.
Qed.

(** What the defaultdict does to a lookup of an unknown name: whatever
    the outcome of [get_vol_info], the name is tracked afterwards, with
    the empty entry. *)
Lemma get_vol_info_untracked_inserts w n verbose human :
  dict_get n (volumes (self w)) = None ->
  snd (get_vol_info n verbose human w) =
    set_volumes (volumes (self w) ++ [(n, default_volume)])%list w.
Proof.
  intros Hn. unfold get_vol_info, bind at 1.
  rewrite (volumes_getitem_absent _ _ Hn).
  rewrite (dict_set_absent _ _ _ Hn).
  open_world w. run.
  destruct (os_path_isfile fs0 _); [|reflexivity].
  destruct verbose; [|reflexivity].
  destruct (os_stat fs0 _); reflexivity.
Qed.

Lemma list_vols_loop_frame w names verbose human acc :
  (forall k, k ∈ names -> dict_contains k (volumes (self w)) = true) ->
  snd (list_vols_loop names verbose human acc w) = w.
Proof.
  revert acc. induction names as [|k names IH]; intros acc Hsub; [reflexivity|].
  assert (Hk : dict_contains k (volumes (self w)) = true)
    by (apply Hsub; left).
  unfold dict_contains in Hk.
  destruct (dict_get k (volumes (self w))) as [v|] eqn:Hget; [|discriminate].
  pose proof (get_vol_info_tracked_frame w k v verbose human Hget) as Hfr.
  simpl. unfold bind.
  destruct (get_vol_info k verbose human w) as [[i|e] w'];
    simpl in Hfr; subst w'; [|reflexivity].
  apply IH. intros k' Hk'. apply Hsub. now right.
Qed.

Lemma pool_list_vols_frame w verbose human :
  snd (pool_list_vols verbose human w) = w.
Proof.
  unfold pool_list_vols, bind, get.
  apply list_vols_loop_frame. intros k Hk. now apply dict_contains_keys.
Qed.

Lemma list_vols_loop_missing w names human acc n v :
  (forall k, k ∈ names -> dict_contains k (volumes (self w)) = true) ->
  n ∈ names ->
  dict_get n (volumes (self w)) = Some v ->
  os_path_isfile (fs w) (vol_path v) = false ->
  exists m,
    list_vols_loop names false human acc w =
      (Raise (PoolVolNotExistError (name (self w)) m), w).
Proof.
  intros Hsub Hin Hn Hf. revert acc.
  induction names as [|k names IH]; intros acc.
  - now apply elem_of_nil in Hin.
  - assert (Hk : dict_contains k (volumes (self w)) = true)
      by (apply Hsub; left).
    unfold dict_contains in Hk.
    destruct (dict_get k (volumes (self w))) as [vk|] eqn:Hget; [|discriminate].
    simpl. unfold bind.
    destruct (os_path_isfile (fs w) (vol_path vk)) eqn:Hfk.
    + rewrite (get_vol_info_tracked_present _ _ _ human Hget Hfk).
      apply IH.
      * intros k' Hk'. apply Hsub. now right.
      * apply elem_of_cons in Hin as [->|Hin]; [|exact Hin].
        congruence.
    + rewrite (get_vol_info_tracked_missing _ _ _ false human Hget Hfk).
      now exists k.
Qed.

Lemma pool_list_vols_missing w human n v :
  dict_get n (volumes (self w)) = Some v ->
  os_path_isfile (fs w) (vol_path v) = false ->
  exists m,
    pool_list_vols false human w =
      (Raise (PoolVolNotExistError (name (self w)) m), w).
Proof.
  intros Hn Hf. unfold pool_list_vols, bind, get.
  apply (list_vols_loop_missing w _ human [] n v); auto.
  - intros k Hk. now apply dict_contains_keys.
  - apply dict_contains_keys. unfold dict_contains. now rewrite Hn.
Qed.

(** C1 at a concrete input: on the pool [p1] as constructed, which
    tracks nothing, [get_vol_info("ghost")] raises the not-found error
    and leaves an entry for [ghost] in the volumes, so that the pool
    now reports the volume as existing. *)
Theorem get_vol_info_creates_entry :
  fst (is_volumes_existed "ghost" w_fresh) = Ret false /\
  get_vol_info "ghost" false true w_fresh =
    (Raise (PoolVolNotExistError "p1" "ghost"),
     set_volumes [("ghost", default_volume)] w_fresh) /\
  fst (is_volumes_existed "ghost"
         (snd (get_vol_info "ghost" false true w_fresh))) = Ret true.
Proof. repeat split. Qed.

Lemma create_volume_fs_frame w n f :
  fs (snd (create_volume n f w)) = fs w.
Proof.
  destruct (active (self w)) eqn:Ha.
  - destruct (dict_get n (volumes (self w))) as [v|] eqn:Hn.
    + now rewrite (create_volume_active_tracked _ _ _ _ Ha Hn).
    + now rewrite (create_volume_active_untracked _ _ f Ha Hn).
  - now rewrite (create_volume_inactive _ n f Ha).
Qed.

Lemma create_volume_active_tracks w n f :
  active (self w) = true ->
  exists u v,
    create_volume n f w =
      (Ret u, set_volumes (dict_set n v (volumes (self w))) w) /\
    dict_get n (dict_set n v (volumes (self w))) = Some v.
Proof.
  intros Ha. destruct (dict_get n (volumes (self w))) as [v|] eqn:Hn.
  - exists (vol_url v), v.
    rewrite (create_volume_active_tracked _ _ _ _ Ha Hn).
    split; [|apply dict_get_set_eq].
    now rewrite (dict_set_same _ _ _ Hn), set_volumes_id.
  - eexists _, _. rewrite (create_volume_active_untracked _ _ f Ha Hn).
    rewrite <- (dict_set_absent _ _ _ Hn).
    split; [reflexivity | apply dict_get_set_eq].
Qed.

(** C10: [create_volume] leaves the filesystem as it found it, on any
    pool.  On an active pool the call ends with an entry [v] under [n],
    and from then on, whatever becomes of the filesystem, as long as no
    regular file exists at the stored path [get_vol_info(n)] raises the
    not-found error naming the pool and [n], and [pool_list_vols()]
    raises a not-found error too; once the file exists
    [get_vol_info(n)] returns the path. *)
Theorem create_volume_writes_no_file (w : world) (n f : string) :
  fs (snd (create_volume n f w)) = fs w /\
  (active (self w) = true ->
   exists u w1 v,
     create_volume n f w = (Ret u, w1) /\
     dict_get n (volumes (self w1)) = Some v /\
     forall fs' : gmap string fnode,
       (os_path_isfile fs' (vol_path v) = false ->
        (forall verbose human,
           get_vol_info n verbose human (set_fs fs' w1) =
             (Raise (PoolVolNotExistError (name (self w)) n), set_fs fs' w1)) /\
        (forall human, exists m,
           pool_list_vols false human (set_fs fs' w1) =
             (Raise (PoolVolNotExistError (name (self w)) m), set_fs fs' w1)))
       /\
       (os_path_isfile fs' (vol_path v) = true ->
        forall human,
          get_vol_info n false human (set_fs fs' w1) =
            (Ret [("path", VStr (vol_path v))], set_fs fs' w1))).
Proof.
  split; [apply create_volume_fs_frame|].
  intros Ha. destruct (create_volume_active_tracks w n f Ha) as (u & v & Hrun & Hget).
  set (w1 := set_volumes (dict_set n v (volumes (self w))) w) in *.
  exists u, w1, v.
  split; [exact Hrun|]. split; [exact Hget|].
  intros fs'. split.
  - intros Hf. split.
    + intros verbose human.
      exact (get_vol_info_tracked_missing (set_fs fs' w1) n v verbose human
               Hget Hf).
    + intros human.
      exact (pool_list_vols_missing (set_fs fs' w1) human n v Hget Hf).
  - intros Hf human.
    exact (get_vol_info_tracked_present (set_fs fs' w1) n v human Hget Hf).
Qed.

Lemma create_volume_writes_no_file_witness :
  exists u w1 v,
    create_volume "a" "qcow2" w_active = (Ret u, w1) /\
    dict_get "a" (volumes (self w1)) = Some v /\
    get_vol_info "a" false true w1 =
      (Raise (PoolVolNotExistError "p1" "a"), w1).
Proof.
  destruct (proj2 (create_volume_writes_no_file w_active "a" "qcow2") eq_refl)
    as (u & w1 & v & Hrun & Hget & Hfs).
  exists u, w1, v. split; [exact Hrun|]. split; [exact Hget|].
  assert (Hw1 : w1 = set_fs fs_empty_dir w1).
  { pose proof (create_volume_fs_frame w_active "a" "qcow2") as Hfr.
    rewrite Hrun in Hfr. simpl in Hfr. destruct w1 as [s1 f1].
    simpl in Hfr. now subst f1. }
  assert (Hf : os_path_isfile fs_empty_dir (vol_path v) = false).
  { assert (Hv : snd (create_volume "a" "qcow2" w_active) = w1)
      by now rewrite Hrun.
    subst w1. simpl in Hget. injection Hget as <-. reflexivity. }
  rewrite Hw1 at 1 2. apply (proj1 (proj1 (Hfs fs_empty_dir) Hf)).
Defined.

(** ** Deletion *)

Lemma delete_volume_inactive w n :
  active (self w) = false ->
  delete_volume n w =
    (Raise (DirectoryPoolInactiveError (name (self w)) "delete_volume"), w).
Proof.
  intros Ha. open_world w. subst act. unfold delete_volume. run. reflexivity.
Qed.

Lemma delete_volume_untracked w n :
  active (self w) = true ->
  dict_contains n (volumes (self w)) = false ->
  delete_volume n w = (Raise (PoolVolNotExistError (name (self w)) n), w).
Proof.
  intros Ha Hc. open_world w. subst act. unfold delete_volume. run.
  rewrite Hc. reflexivity.
Qed.

Lemma delete_volume_tracked w n v :
  active (self w) = true ->
  dict_get n (volumes (self w)) = Some v ->
  delete_volume n w =
    (Ret tt,
     set_volumes (dict_del n (volumes (self w)))
       (if os_path_isfile (fs w) (vol_path v)
        then set_fs (os_remove (fs w) (vol_path v)) w else w)).
Proof.
  intros Ha Hn.
  assert (Hc : dict_contains n (volumes (self w)) = true).
  { unfold dict_contains. now rewrite Hn. }
  open_world w. subst act. unfold delete_volume. run. rewrite Hc. run.
  erewrite volumes_getitem_present by (run; exact Hn). run.
  destruct (os_path_isfile fs0 (vol_path v)); reflexivity.
Qed.



(** What the two domain errors print. *)
Lemma exn_str_not_found p n :
  exn_str (PoolVolNotExistError p n) =
    "failed to get vol '" +:+ n +:+ "' in pool '" +:+ p +:+ "'".
Proof. reflexivity. Qed.

Lemma exn_str_inactive p f :
  exn_str (DirectoryPoolInactiveError p f) =
    "DirectoryPool " +:+ p +:+ " is inactive, unable to call " +:+ f +:+ ".".
Proof. reflexivity. Qed.

(** ** The volumes hold each name once

    The keys of [self.volumes] are those of a Python dict: the pool is
    built with none and every operation keeps them distinct. *)

Lemma DirectoryPool_init_NoDup pool_name cfg fresh_uuid p :
  DirectoryPool_init pool_name cfg fresh_uuid = Ret p ->
  NoDup (dict_keys (volumes p)) /\ active p = false.
Proof.
  unfold DirectoryPool_init. destruct (_parse_config cfg); [|discriminate].
  intros [= <-]. split; [apply NoDup_nil_2 | reflexivity].
Qed.

Lemma create_volume_NoDup w n f :
  NoDup (dict_keys (volumes (self w))) ->
  NoDup (dict_keys (volumes (self (snd (create_volume n f w))))).
Proof.
  intros Hnd. destruct (active (self w)) eqn:Ha.
  - destruct (dict_get n (volumes (self w))) as [v|] eqn:Hn.
    + now rewrite (create_volume_active_tracked _ _ _ _ Ha Hn).
    + rewrite (create_volume_active_untracked _ _ f Ha Hn).
      rewrite <- (dict_set_absent _ _ _ Hn). now apply dict_set_NoDup.
  - now rewrite (create_volume_inactive _ n f Ha).
Qed.

Lemma get_vol_info_NoDup w n verbose human :
  NoDup (dict_keys (volumes (self w))) ->
  NoDup (dict_keys (volumes (self (snd (get_vol_info n verbose human w))))).
Proof.
  intros Hnd. destruct (dict_get n (volumes (self w))) as [v|] eqn:Hn.
  - now rewrite (get_vol_info_tracked_frame _ _ _ verbose human Hn).
  - rewrite (get_vol_info_untracked_inserts _ _ verbose human Hn).
    rewrite <- (dict_set_absent _ _ _ Hn). now apply dict_set_NoDup.
Qed.

Lemma delete_volume_NoDup w n :
  NoDup (dict_keys (volumes (self w))) ->
  NoDup (dict_keys (volumes (self (snd (delete_volume n w))))).
Proof.
  intros Hnd. destruct (active (self w)) eqn:Ha.
  - destruct (dict_get n (volumes (self w))) as [v|] eqn:Hn.
    + rewrite (delete_volume_tracked _ _ _ Ha Hn). cbn.
      destruct (os_path_isfile (fs w) (vol_path v)); now apply dict_del_NoDup.
    + apply dict_contains_false in Hn.
      now rewrite (delete_volume_untracked _ _ Ha Hn).
  - now rewrite (delete_volume_inactive _ n Ha).
Qed.

(** ** Construction *)

Lemma startswith_app_char pat k c :
  has_char c pat = false ->
  startswith pat (k +:+ String c EmptyString) = startswith pat k.
Proof.
  revert k. induction pat as [|a pat IH]; intros k Hc; [now destruct k|].
  simpl in Hc. apply orb_false_iff in Hc as [Hac Hc].
  destruct k as [|b k]; simpl.
  - now rewrite Hac.
  - destruct (Ascii.eqb a b); [now apply IH | reflexivity].
Qed.

(** A text without occurrence of the pattern goes through [re.sub]
    unchanged, also when followed by a character foreign to the
    pattern. *)
Lemma sub_from_no_occurrence pat rep k c :
  has_char c pat = false -> pat <> EmptyString ->
  contains pat k = false ->
  sub_from pat rep O (k +:+ String c EmptyString) = k +:+ String c EmptyString.
Proof.
  intros Hc Hpat. induction k as [|b k IH]; intros Hk.
  - simpl. destruct pat as [|a pat]; [congruence|].
    simpl in *. apply orb_false_iff in Hc as [Hac _]. now rewrite Hac.
  - simpl in Hk. apply orb_false_iff in Hk as [Hs Hk].
    change (String b k +:+ String c EmptyString)
      with (String b (k +:+ String c EmptyString)).
    cbn [sub_from].
    change (String b (k +:+ String c EmptyString))
      with (String b k +:+ String c EmptyString) at 1.
    rewrite (startswith_app_char _ _ _ Hc), Hs.
    now rewrite IH.
Qed.

Lemma parser_all_path cfg b :
  Forall (fun k => k = "path") (dict_keys cfg) ->
  (cfg <> [] \/ b <> None) ->
  exists c, parser cfg b = Ret c.
Proof.
  revert b. induction cfg as [|[k v] cfg IH]; intros b Hall Hne; simpl.
  - destruct b; [eauto | destruct Hne; congruence].
  - apply Forall_cons in Hall as [Hk Hall']. simpl in Hk. subst k. simpl.
    apply IH; [exact Hall' | right; discriminate].
Qed.

Lemma parser_ok_all_path cfg b c :
  parser cfg b = Ret c ->
  Forall (fun k => k = "path") (dict_keys cfg) /\ (cfg <> [] \/ b <> None).
Proof.
  revert b. induction cfg as [|[k v] cfg IH]; intros b; simpl.
  - destruct b; [|discriminate]. intros _. split; [constructor|].
    right. discriminate.
  - destruct (String.eqb k "path") eqn:E; [|discriminate].
    apply String.eqb_eq in E. subst k. intros H.
    destruct (IH _ H) as [Hall _]. split; [now apply Forall_cons|].
    left. discriminate.
Qed.

Lemma only_path_Forall cfg :
  only_path cfg <->
  Forall (fun k => k = "path") (dict_keys cfg) /\ cfg <> [].
Proof.
  unfold only_path. split.
  - intros H. split.
    + apply Forall_forall. intros k Hk.
      assert (Hin : k ∈ ({[ "path" ]} : gset string))
        by (rewrite <- H; now apply elem_of_list_to_set).
      now apply elem_of_singleton in Hin.
    + intros ->. simpl in H. symmetry in H.
      now apply (non_empty_singleton_L (C:=gset string)) in H.
  - intros [Hall Hne]. apply set_eq. intros k.
    rewrite elem_of_list_to_set, elem_of_singleton. split.
    + intros Hk. rewrite Forall_forall in Hall. now apply Hall.
    + intros ->. destruct cfg as [|[k v] cfg]; [congruence|].
      apply Forall_cons in Hall as [Hk _]. simpl in *. subst k. left.
Qed.

(** Construction succeeds exactly on the configs whose key set is
    [{"path"}]; every failure is a [DirectoryPoolConfigError], whose
    text starts by naming the required field. *)
Lemma DirectoryPool_init_ok_iff pool_name cfg fresh_uuid :
  (exists p, DirectoryPool_init pool_name cfg fresh_uuid = Ret p) <->
  only_path cfg.
Proof.
  rewrite only_path_Forall. unfold DirectoryPool_init, _parse_config. split.
  - intros [p Hp]. destruct (parser cfg None) as [c|e] eqn:E.
    + apply parser_ok_all_path in E as [Hall [Hne|Hne]]; [auto | congruence].
    + destruct e; discriminate.
  - intros [Hall Hne].
    destruct (parser_all_path cfg None Hall (or_introl Hne)) as [c ->].
    eauto.
Qed.

Lemma parser_raises_TypeError cfg b e :
  parser cfg b = Raise e -> exists msg, e = TypeError msg.
Proof.
  revert b. induction cfg as [|[k v] cfg IH]; intros b; simpl.
  - destruct b; [discriminate|]. intros [= <-]. eauto.
  - destruct (String.eqb k "path"); [apply IH|]. intros [= <-]. eauto.
Qed.

Lemma DirectoryPool_init_failure pool_name cfg fresh_uuid e :
  DirectoryPool_init pool_name cfg fresh_uuid = Raise e ->
  exists err_msg,
    e = DirectoryPoolConfigError err_msg /\
    exn_str e = "required field: path" +:+ nl +:+ "but " +:+ err_msg.
Proof.
  unfold DirectoryPool_init, _parse_config.
  destruct (parser cfg None) as [c|e'] eqn:E; [discriminate|].
  destruct (parser_raises_TypeError _ _ _ E) as [msg ->].
  intros [= <-]. eauto.
Qed.

(** A config without the key [path] and without any other key. *)
Example DirectoryPool_init_missing_path :
  DirectoryPool_init "p1" [] 7%N =
    Raise (DirectoryPoolConfigError
             "DirectoryPool missing 1 required positional argument: 'path'").
Proof. reflexivity. Qed.

(** The first key that is not [path] is reported between quotes, as
    long as the text [parser()] does not occur in it. *)
Lemma DirectoryPool_init_unexpected pool_name pre k v rest fresh_uuid :
  Forall (fun k' => k' = "path") (dict_keys pre) ->
  k <> "path" ->
  contains "parser()" k = false ->
  DirectoryPool_init pool_name (pre ++ (k, v) :: rest)%list fresh_uuid =
    Raise (DirectoryPoolConfigError
             ("DirectoryPool got an unexpected keyword argument '"
                +:+ k +:+ "'")).
Proof.
  intros Hpre Hk Hocc. unfold DirectoryPool_init, _parse_config.
  assert (Hp : forall b, parser (pre ++ (k, v) :: rest)%list b =
    Raise (TypeError ("parser() got an unexpected keyword argument '"
                        +:+ k +:+ "'"))).
  { induction pre as [|[k0 v0] pre IH]; intros b; simpl.
    - apply String.eqb_neq in Hk. now rewrite Hk.
    - apply Forall_cons in Hpre as [Hk0 Hpre']. simpl in Hk0. subst k0.
      simpl. now apply IH. }
  rewrite Hp. do 2 f_equal. unfold re_sub. cbn [sub_from startswith String.append
    Ascii.eqb Bool.eqb String.length Nat.pred].
  rewrite (sub_from_no_occurrence "parser()" "DirectoryPool" k "'");
    [reflexivity | reflexivity | discriminate | exact Hocc].
Qed.

Lemma DirectoryPool_init_unexpected_names pool_name pre k v rest fresh_uuid e :
  Forall (fun k' => k' = "path") (dict_keys pre) ->
  k <> "path" ->
  contains "parser()" k = false ->
  DirectoryPool_init pool_name (pre ++ (k, v) :: rest)%list fresh_uuid = Raise e ->
  exn_str e =
    "required field: path" +:+ nl
      +:+ "but DirectoryPool got an unexpected keyword argument '"
      +:+ k +:+ "'".
Proof.
  intros Hpre Hk Hocc.
  rewrite (DirectoryPool_init_unexpected _ _ _ _ _ _ Hpre Hk Hocc).
  intros [= <-]. reflexivity.
Qed.

(** C9 at a concrete input: the config [{'parser()': '/tmp/xyz'}] has
    the unexpected key [parser()].  Construction fails, but the
    substitution that renames [parser()] in the interpreter's message
    also rewrites the quoted key, and the text of the error no longer
    contains the offending key. *)
Theorem DirectoryPool_init_key_rewritten :
  DirectoryPool_init "p1" [("parser()", "/tmp/xyz")] 7%N =
    Raise (DirectoryPoolConfigError
             "DirectoryPool got an unexpected keyword argument 'DirectoryPool'")
  /\
  contains "parser()"
    (exn_str (DirectoryPoolConfigError
                "DirectoryPool got an unexpected keyword argument 'DirectoryPool'"))
    = false.
Proof. split; reflexivity. Qed.

(** ** Size formatting *)

(** The loop stops at the first unit whose threshold [base^(i+1)]
    exceeds the value, and at the last unit when none does. *)
Lemma scan_units_spec x base ss i0 cur :
  ss <> [] ->
  exists k s,
    (k < length ss)%nat /\
    nth_error ss k = Some s /\
    scan_units x base i0 ss cur = Some (s, base ^ (Z.of_nat (i0 + k) + 1)) /\
    (forall j, (j < k)%nat ->
       Float.lt_int x (base ^ (Z.of_nat (i0 + j) + 1)) = false) /\
    (Float.lt_int x (base ^ (Z.of_nat (i0 + k) + 1)) = true \/
     S k = length ss).
Proof.
  revert i0 cur. induction ss as [|s ss IH]; intros i0 cur Hne; [congruence|].
  simpl.
  destruct (Float.lt_int x (base ^ (Z.of_nat i0 + 1))) eqn:Hlt.
  - exists O, s. rewrite Nat.add_0_r. simpl.
    repeat split; auto; lia.
  - destruct ss as [|s' ss].
    + exists O, s. rewrite Nat.add_0_r. simpl.
      repeat split; auto; lia.
    + destruct (IH (S i0) (Some (s, base ^ (Z.of_nat i0 + 1))))
        as (k & t & Hk & Hnth & Hscan & Hbelow & Hstop); [discriminate|].
      exists (S k), t.
      replace (i0 + S k)%nat with (S i0 + k)%nat by lia.
      split; [simpl in *; lia|]. split; [exact Hnth|].
      split; [exact Hscan|]. split.
      * intros j Hj. destruct j as [|j].
        -- now rewrite Nat.add_0_r.
        -- replace (i0 + S j)%nat with (S i0 + j)%nat by lia.
           apply Hbelow. lia.
      * destruct Hstop as [Hstop|Hstop]; [now left|].
        right. simpl in *. lia.
Qed.

Lemma pct_d_integer y :
  Float.is_integer y = true -> exists d, Float.pct_d y = Ret d.
Proof. destruct y; simpl; try discriminate; eauto. Qed.

(** C3, as the code has it.  The four vectors print a bare integer
    where the scaled value is whole: ["999 B"], ["1 KiB"], ["2 KiB"],
    ["1 kB"].  In general, when the byte count converts to a double
    [x] (it raises [OverflowError] otherwise), the unit is the first of
    the table whose threshold [base^(i+1)] exceeds [x], or the last unit
    if none does; the scaled value [y] is [x * base / base^(i+1)] in
    double arithmetic; the result is the integer without decimals when
    [y] has no fractional part and [y] rounded to one decimal place
    otherwise, followed by a space and the suffix. *)
Theorem format_size_human_readable_spec :
  format_size_human_readable 999 false = Ret "999 B" /\
  format_size_human_readable 1024 true = Ret "1 KiB" /\
  format_size_human_readable 2048 true = Ret "2 KiB" /\
  format_size_human_readable 1000 false = Ret "1 kB" /\
  format_size_human_readable 1536 true = Ret "1.5 KiB" /\
  forall (v : Z) (binary : bool),
    match Float.of_int v with
    | Raise e => format_size_human_readable v binary = Raise e
    | Ret x =>
        exists (i : nat) (s : string),
          nth_error (suffixes binary) i = Some s /\
          (forall j, (j < i)%nat ->
             Float.lt_int x (size_base binary ^ (Z.of_nat j + 1)) = false) /\
          (Float.lt_int x (size_base binary ^ (Z.of_nat i + 1)) = true \/
           i = 8%nat) /\
          let y := Float.div (Float.mul x (Float.coerce (size_base binary)))
                     (Float.coerce (size_base binary ^ (Z.of_nat i + 1))) in
          (Float.is_integer y = true ->
           exists d, Float.pct_d y = Ret d /\
             format_size_human_readable v binary = Ret (d +:+ " " +:+ s)) /\
          (Float.is_integer y = false ->
           format_size_human_readable v binary =
             Ret (Float.pct_1f y +:+ " " +:+ s))
    end.
Proof.
  do 5 (split; [vm_compute; reflexivity|]).
  intros v binary. unfold format_size_human_readable.
  destruct (Float.of_int v) as [x|e]; [|reflexivity].
  destruct (scan_units_spec x (size_base binary) (suffixes binary) O None)
    as (k & s & Hk & Hnth & Hscan & Hbelow & Hstop).
  { now destruct binary. }
  simpl in Hscan, Hbelow, Hstop. rewrite Hscan.
  exists k, s. split; [exact Hnth|]. split; [exact Hbelow|]. split.
  { destruct Hstop as [Hstop|Hstop]; [now left|]. right.
    destruct binary; simpl in Hstop; lia. }
  cbv zeta. split.
  - intros Hint. rewrite Hint.
    destruct (pct_d_integer _ Hint) as [d Hd]. exists d. now rewrite Hd.
  - intros Hint. now rewrite Hint.
Qed.

(** C3 as stated fails on its own vectors: 1024 bytes binary print as
    ["1 KiB"], not ["1.0 KiB"], since the scaled value is whole; and
    the unit is not the largest one whose scaled value is below the
    base: 999 bytes scaled to kB are below 1000 too, yet they print in
    bytes. *)
Lemma format_size_1024_no_decimal :
  format_size_human_readable 1024 true = Ret "1 KiB" /\
  format_size_human_readable 1024 true <> Ret "1.0 KiB" /\
  format_size_human_readable 999 false = Ret "999 B" /\
  Float.lt_int (Float.coerce 999) (size_base false ^ 2) = true.
Proof.
  split; [vm_compute; reflexivity|].
  split; [vm_compute; discriminate|].
  split; vm_compute; reflexivity.
Qed.

(** * Further properties *)

(** ** Starting a pool *)

Lemma os_path_isdir_exists fs0 p :
  os_path_isdir fs0 p = true -> os_path_exists fs0 p = true.
Proof.
  unfold os_path_isdir, os_path_exists.
  destruct (String.eqb p "/"); [reflexivity|]. simpl.
  destruct (fs0 !! p) as [[]|]; auto.
Qed.

Lemma os_path_isdir_insert fs0 p :
  os_path_isdir (<[p := Directory]> fs0) p = true.
Proof.
  unfold os_path_isdir. rewrite lookup_insert_eq. apply orb_true_r.
Qed.

(** The three ways [pool_start] can go. *)
Lemma pool_start_existing w cwd :
  let p := abspath cwd (path (config (self w))) in
  os_path_isdir (fs w) p = true ->
  pool_start cwd w =
    (Ret tt, set_active true (set_config {| path := p |} w)).
Proof.
  intros p Hd. subst p. open_world w.
  unfold pool_start, _pool_build. run. rewrite Hd. reflexivity.
Qed.

Lemma pool_start_created w cwd :
  let p := abspath cwd (path (config (self w))) in
  os_path_exists (fs w) p = false ->
  os_path_isdir (fs w) (parent_dir p) = true ->
  pool_start cwd w =
    (Ret tt,
     set_active true
       (set_config {| path := p |} (set_fs (<[p := Directory]> (fs w)) w))).
Proof.
  intros p He Hp. subst p. open_world w.
  assert (Hd : os_path_isdir fs0 (abspath cwd D) = false).
  { destruct (os_path_isdir fs0 (abspath cwd D)) eqn:E; [|reflexivity].
    apply os_path_isdir_exists in E. congruence. }
  unfold pool_start, _pool_build. run. rewrite Hd.
  unfold os_mkdir. run. rewrite He, Hp. reflexivity.
Qed.

Lemma pool_start_refused w cwd :
  let p := abspath cwd (path (config (self w))) in
  os_path_isdir (fs w) p = false ->
  os_path_exists (fs w) p = true \/
  os_path_isdir (fs w) (parent_dir p) = false ->
  pool_start cwd w = (Raise OSError, w).
Proof.
  intros p Hd Hbad. subst p. open_world w.
  unfold pool_start, _pool_build. run. rewrite Hd.
  unfold os_mkdir. run.
  destruct (os_path_exists fs0 (abspath cwd D)); [reflexivity|].
  destruct Hbad as [Hbad|Hbad]; [discriminate|]. now rewrite Hbad.
Qed.

(** [pool_start] either succeeds on a directory that is there, succeeds
    by making it, or is refused. *)
Lemma pool_start_cases w cwd :
  let p := abspath cwd (path (config (self w))) in
  (os_path_isdir (fs w) p = true /\
   pool_start cwd w =
     (Ret tt, set_active true (set_config {| path := p |} w)))
  \/
  (os_path_exists (fs w) p = false /\
   os_path_isdir (fs w) (parent_dir p) = true /\
   pool_start cwd w =
     (Ret tt,
      set_active true
        (set_config {| path := p |} (set_fs (<[p := Directory]> (fs w)) w))))
  \/
  (os_path_isdir (fs w) p = false /\
   (os_path_exists (fs w) p = true \/
    os_path_isdir (fs w) (parent_dir p) = false) /\
   pool_start cwd w = (Raise OSError, w)).
Proof.
  intros p.
  destruct (os_path_isdir (fs w) p) eqn:Hd.
  - left. split; [reflexivity|]. now apply pool_start_existing.
  - destruct (os_path_exists (fs w) p) eqn:He.
    + right. right. split; [reflexivity|]. split; [now left|].
      apply pool_start_refused; auto.
    + destruct (os_path_isdir (fs w) (parent_dir p)) eqn:Hp.
      * right. left. split; [reflexivity|]. split; [reflexivity|].
        now apply pool_start_created.
      * right. right. split; [reflexivity|]. split; [now right|].
        apply pool_start_refused; auto.
Qed.

(** X1: when [pool_start] returns, the pool is active, its configured
    path is the absolute, normalised form of the one it had, that path
    is a directory, and nothing else of the pool changed; the
    filesystem differs at most by that one directory. *)
Theorem pool_start_success (w w' : world) (cwd : string) :
  pool_start cwd w = (Ret tt, w') ->
  let p := abspath cwd (path (config (self w))) in
  active (self w') = true /\
  path (config (self w')) = p /\
  os_path_isdir (fs w') p = true /\
  volumes (self w') = volumes (self w) /\
  name (self w') = name (self w) /\
  uuid (self w') = uuid (self w) /\
  (forall q, q <> p -> fs w' !! q = fs w !! q).
Proof.
  intros Hrun p.
  destruct (pool_start_cases w cwd) as [[Hd H]|[(He & Hp & H)|(Hd & Hbad & H)]];
    fold p in H, Hd || fold p in H; rewrite H in Hrun.
  - injection Hrun as <-. cbn. repeat split; auto.
  - injection Hrun as <-. cbn. repeat split; auto.
    + apply os_path_isdir_insert.
    + intros q Hq. now apply lookup_insert_ne.
  - discriminate.
Qed.

Lemma pool_start_success_witness :
  active (self (snd (pool_start "/" w_fresh))) = true /\
  path (config (self (snd (pool_start "/" w_fresh)))) = "/tmp/xyz".
Proof.
  destruct (pool_start_success w_fresh (snd (pool_start "/" w_fresh)) "/"
              eq_refl) as (Ha & Hp & _).
  split; [exact Ha | exact Hp].
Defined.



(** ** Normal forms of paths *)

Lemma split_char_no_sep c s :
  Forall (fun seg => has_char c seg = false) (split_char c s).
Proof.
  induction s as [|a s IH]; simpl.
  - repeat constructor.
  - destruct (Ascii.eqb a c) eqn:E.
    + constructor; [reflexivity | exact IH].
    + destruct (split_char c s) as [|seg segs].
      * repeat constructor. simpl. now rewrite E.
      * apply Forall_cons in IH as [Hseg Hsegs].
        constructor; [simpl; now rewrite E, Hseg | exact Hsegs].
Qed.

Lemma split_char_no_occurrence c s :
  has_char c s = false -> split_char c s = [s].
Proof.
  induction s as [|a s IH]; simpl; [reflexivity|].
  intros H. apply orb_false_iff in H as [Ha Hs].
  rewrite Ha, (IH Hs). reflexivity.
Qed.

Lemma split_char_app c s t :
  has_char c s = false ->
  split_char c (s +:+ String c t) = s :: split_char c t.
Proof.
  induction s as [|a s IH]; simpl.
  - now rewrite Ascii.eqb_refl.
  - intros H. apply orb_false_iff in H as [Ha Hs].
    rewrite Ha, (IH Hs). reflexivity.
Qed.

(** Splitting undoes joining, for segments free of the separator. *)
Lemma split_char_join c l :
  l <> [] ->
  Forall (fun seg => has_char c seg = false) l ->
  split_char c (join_str (String c EmptyString) l) = l.
Proof.
  induction l as [|x l IH]; [congruence|]. intros _ Hall.
  apply Forall_cons in Hall as [Hx Hl].
  destruct l as [|y l].
  - simpl. now apply split_char_no_occurrence.
  - change (join_str (String c EmptyString) (x :: y :: l))
      with (x +:+ String c (join_str (String c EmptyString) (y :: l))).
    rewrite (split_char_app _ _ _ Hx), IH; [reflexivity | discriminate | exact Hl].
Qed.

Lemma normpath_step_clean i stack comp :
  i <> O ->
  Forall clean_comp stack ->
  has_char "/" comp = false ->
  Forall clean_comp (normpath_step i stack comp).
Proof.
  intros Hi Hst Hc. unfold normpath_step.
  destruct (String.eqb comp EmptyString) eqn:E0; [exact Hst|].
  destruct (String.eqb comp ".") eqn:E1; [exact Hst|]. simpl.
  apply String.eqb_neq in E0, E1.
  destruct (String.eqb comp "..") eqn:E2; simpl.
  - destruct i as [|i]; [congruence|]. simpl.
    destruct stack as [|top stack]; [exact Hst|].
    apply Forall_cons in Hst as [Htop Hst].
    destruct (String.eqb top "..") eqn:E3; [|exact Hst].
    apply String.eqb_eq in E3. destruct Htop as (_ & _ & Hdd & _). congruence.
  - apply String.eqb_neq in E2. constructor; [|exact Hst].
    repeat split; assumption.
Qed.

Lemma normpath_fold_clean i comps stack :
  i <> O ->
  Forall clean_comp stack ->
  Forall (fun c => has_char "/" c = false) comps ->
  Forall clean_comp (fold_left (normpath_step i) comps stack).
Proof.
  intros Hi. revert stack. induction comps as [|c comps IH]; intros stack Hst Hc.
  - exact Hst.
  - apply Forall_cons in Hc as [Hc Hcs]. simpl.
    apply IH; [|exact Hcs]. now apply normpath_step_clean.
Qed.

Lemma normpath_step_push i stack comp :
  clean_comp comp -> normpath_step i stack comp = comp :: stack.
Proof.
  intros (H0 & H1 & H2 & _). unfold normpath_step.
  apply String.eqb_neq in H0, H1, H2. now rewrite H0, H1, H2.
Qed.

Lemma normpath_fold_push i comps stack :
  Forall clean_comp comps ->
  fold_left (normpath_step i) comps stack = (rev comps ++ stack)%list.
Proof.
  revert stack. induction comps as [|c comps IH]; intros stack Hc; [reflexivity|].
  apply Forall_cons in Hc as [Hc Hcs]. simpl.
  rewrite (normpath_step_push _ _ _ Hc), (IH _ Hcs).
  now rewrite <- app_assoc.
Qed.

Lemma clean_comp_no_sep l :
  Forall clean_comp l -> Forall (fun c => has_char "/" c = false) l.
Proof.
  intros H. eapply Forall_impl; [exact H|]. now intros c (_ & _ & _ & Hc).
Qed.

Lemma join_str_head c l :
  clean_comp c ->
  exists a rest,
    join_str "/" (c :: l) = String a rest /\ Ascii.eqb a "/" = false.
Proof.
  intros (H0 & _ & _ & Hs). destruct c as [|a c]; [congruence|].
  simpl in Hs. apply orb_false_iff in Hs as [Ha _].
  destruct l as [|y l]; simpl; eauto.
Qed.

(** The normal form of an absolute path is an absolute path in normal
    form. *)
Lemma normpath_absolute x :
  startswith "/" x = true -> normal_abs (normpath x).
Proof.
  intros Hx. unfold normpath.
  destruct x as [|a x]; [discriminate|].
  change (String.eqb (String a x) EmptyString) with false. cbv iota.
  rewrite Hx.
  set (i := if startswith "//" (String a x) && negb (startswith "///" (String a x))
            then 2%nat else 1%nat).
  assert (Hi : i <> O) by (subst i; destruct (_ && _); discriminate).
  pose proof (normpath_fold_clean i (split_char "/" (String a x)) [] Hi
                (Forall_nil_2 _) (split_char_no_sep _ _)) as Hclean.
  set (st := fold_left (normpath_step i) (split_char "/" (String a x)) []) in *.
  exists (rev st). split; [now apply Forall_rev|].
  destruct i as [|[|i]]; [congruence | left | right]; reflexivity.
Qed.

(** A path in normal form is its own normal form. *)
Lemma normpath_normal r : normal_abs r -> normpath r = r.
Proof.
  intros (l & Hl & Hr). destruct l as [|c l].
  - destruct Hr as [-> | ->]; reflexivity.
  - apply Forall_cons in Hl as Hcl. destruct Hcl as [Hc _].
    destruct (join_str_head c l Hc) as (a & rest & Hj & Ha).
    pose proof (split_char_join "/" (c :: l) ltac:(discriminate)
                  (clean_comp_no_sep _ Hl)) as Hsplit.
    change (String "/" EmptyString) with "/" in Hsplit.
    assert (Hab : Ascii.eqb "/" a = false) by (rewrite Ascii.eqb_sym; exact Ha).
    unfold normpath.
    destruct Hr as [-> | ->]; rewrite Hj in *.
    + change ("/" +:+ String a rest) with (String "/" (String a rest)).
      change (String.eqb (String "/" (String a rest)) EmptyString) with false.
      change (startswith "/" (String "/" (String a rest))) with true.
      change (startswith "//" (String "/" (String a rest)))
        with (if Ascii.eqb "/" a then true else false).
      rewrite Hab. cbv iota. rewrite andb_false_l.
      change (split_char "/" (String "/" (String a rest)))
        with (EmptyString :: split_char "/" (String a rest)).
      rewrite Hsplit.
      change (fold_left (normpath_step 1) (EmptyString :: c :: l) [])
        with (fold_left (normpath_step 1) (c :: l) []).
      rewrite (normpath_fold_push _ _ _ Hl), app_nil_r, rev_involutive, Hj.
      reflexivity.
    + change ("//" +:+ String a rest)
        with (String "/" (String "/" (String a rest))).
      change (String.eqb (String "/" (String "/" (String a rest))) EmptyString)
        with false.
      change (startswith "/" (String "/" (String "/" (String a rest))))
        with true.
      change (startswith "//" (String "/" (String "/" (String a rest))))
        with true.
      change (startswith "///" (String "/" (String "/" (String a rest))))
        with (if Ascii.eqb "/" a then true else false).
      rewrite Hab. cbv iota. cbn [andb negb].
      change (split_char "/" (String "/" (String "/" (String a rest))))
        with (EmptyString :: EmptyString :: split_char "/" (String a rest)).
      rewrite Hsplit.
      change (fold_left (normpath_step 2) (EmptyString :: EmptyString :: c :: l) [])
        with (fold_left (normpath_step 2) (c :: l) []).
      rewrite (normpath_fold_push _ _ _ Hl), app_nil_r, rev_involutive, Hj.
      reflexivity.
Qed.

Lemma normal_abs_absolute r : normal_abs r -> startswith "/" r = true.
Proof. intros (l & _ & [-> | ->]); reflexivity. Qed.

Lemma os_path_join_absolute cwd p :
  startswith "/" cwd = true -> startswith "/" (os_path_join cwd p) = true.
Proof.
  intros Hc. unfold os_path_join.
  destruct (startswith "/" p) eqn:Hp; [exact Hp|].
  destruct cwd as [|a cwd]; [discriminate|].
  destruct (String.eqb (String a cwd) EmptyString || endswith_char "/" (String a cwd));
    exact Hc.
Qed.

(** The absolute form of a path is in normal form, given an absolute
    working directory, and is then left alone by [abspath]. *)
Lemma abspath_normal_abs cwd p :
  startswith "/" cwd = true \/ startswith "/" p = true ->
  normal_abs (abspath cwd p).
Proof.
  intros H. unfold abspath. apply normpath_absolute.
  destruct (startswith "/" p) eqn:Hp; [exact Hp|].
  destruct H as [H|H]; [|discriminate]. now apply os_path_join_absolute.
Qed.

Lemma abspath_fixed cwd r : normal_abs r -> abspath cwd r = r.
Proof.
  intros Hr. unfold abspath. rewrite (normal_abs_absolute _ Hr).
  now apply normpath_normal.
Qed.

(** X3: once [pool_start] has returned, with an absolute working
    directory or an absolute configured path, calling it again, from
    any working directory, returns and changes nothing. *)
Theorem pool_start_idempotent (w w1 : world) (cwd cwd' : string) :
  startswith "/" cwd = true \/
  startswith "/" (path (config (self w))) = true ->
  pool_start cwd w = (Ret tt, w1) ->
  pool_start cwd' w1 = (Ret tt, w1).
Proof.
  intros Habs Hrun.
  pose proof (abspath_normal_abs _ _ Habs) as Hn.
  assert (Hw1 : active (self w1) = true /\
                path (config (self w1)) = abspath cwd (path (config (self w))) /\
                os_path_isdir (fs w1) (abspath cwd (path (config (self w)))) = true).
  { destruct (pool_start_cases w cwd)
      as [[Hd H]|[(He & Hp & H)|(Hd & Hbad & H)]];
      rewrite H in Hrun; try discriminate; injection Hrun as <-; cbn.
    - auto.
    - repeat split. apply os_path_isdir_insert. }
  destruct Hw1 as (Ha & Hp & Hd).
  pose proof (pool_start_existing w1 cwd') as H. cbv zeta in H.
  rewrite Hp, (abspath_fixed _ _ Hn) in H. rewrite (H Hd).
  f_equal. destruct w1 as [[nm uu [D] sl tl act vols] fs1].
  cbn in *. now subst.
Qed.

Lemma pool_start_idempotent_witness :
  pool_start "/home" (snd (pool_start "/" w_fresh)) =
    (Ret tt, snd (pool_start "/" w_fresh)).
Proof.
  apply (pool_start_idempotent w_fresh _ "/" "/home");
    [left; reflexivity | reflexivity].
Defined.

(** ** Statistics and information *)

Lemma pool_stat_frame w os_statvfs human :
  snd (pool_stat os_statvfs human w) = w.
Proof.
  open_world w. unfold pool_stat. run.
  destruct (os_statvfs D) as [st|e]; [|reflexivity].
  destruct human; reflexivity.
Qed.

Lemma pool_info_frame w os_statvfs :
  snd (pool_info os_statvfs w) = w.
Proof.
  unfold pool_info, bind at 1. unfold is_pool_active, bind, get, ret.
  destruct (active (self w)) eqn:Ha; cbn [negb]; [|reflexivity].
  pose proof (pool_stat_frame w os_statvfs true) as Hfr.
  destruct (pool_stat os_statvfs true w) as [[d|e] w']; simpl in Hfr; subst w';
    reflexivity.
Qed.

(** ** What every sequence of calls preserves *)

Lemma pool_inv_set_fs w fs' : pool_inv w -> pool_inv (set_fs fs' w).
Proof. intros H. exact H. Qed.

Lemma pool_inv_dict_set w n v :
  pool_inv w ->
  (v = default_volume \/
   (active (self w) = true /\
    vol_path v = os_path_join (path (config (self w))) n /\ coherent v)) ->
  pool_inv (set_volumes (dict_set n v (volumes (self w))) w).
Proof.
  intros (Hnd & Hnorm & Hent) Hv. split; [|split]; cbn.
  - now apply dict_set_NoDup.
  - exact Hnorm.
  - intros k u. cbn. destruct (String.eqb_spec n k) as [<-|Hne].
    + rewrite dict_get_set_eq. intros [= <-]. exact Hv.
    + rewrite (dict_get_set_ne _ _ _ _ Hne). apply Hent.
Qed.

Lemma pool_inv_dict_del w n :
  pool_inv w -> pool_inv (set_volumes (dict_del n (volumes (self w))) w).
Proof.
  intros (Hnd & Hnorm & Hent). split; [|split]; cbn.
  - now apply dict_del_NoDup.
  - exact Hnorm.
  - intros k u. cbn. destruct (String.eqb_spec n k) as [<-|Hne].
    + now rewrite (dict_get_del_eq _ _ Hnd).
    + rewrite (dict_get_del_ne _ _ _ Hne). apply Hent.
Qed.

Lemma pool_inv_started w p :
  pool_inv w ->
  normal_abs p ->
  (active (self w) = true -> p = path (config (self w))) ->
  pool_inv (set_active true (set_config {| path := p |} w)).
Proof.
  intros (Hnd & Hnorm & Hent) Hp Hsame. split; [|split]; cbn.
  - exact Hnd.
  - intros _. exact Hp.
  - intros n v Hget. destruct (Hent n v Hget) as [Hv|(Ha & Hpath & Hco)].
    + now left.
    + right. rewrite (Hsame Ha). auto.
Qed.

Lemma perform_pool_inv c w :
  possible_call c -> pool_inv w -> pool_inv (perform c w).
Proof.
  intros Hc Hinv. destruct c; simpl in *.
  - (* pool_start *)
    assert (Hp : normal_abs (abspath cwd (path (config (self w)))))
      by (apply abspath_normal_abs; now left).
    assert (Hsame : active (self w) = true ->
                    abspath cwd (path (config (self w))) = path (config (self w))).
    { intros Ha. apply abspath_fixed. now apply Hinv. }
    destruct (pool_start_cases w cwd)
      as [[Hd H]|[(He & Hpar & H)|(Hd & Hbad & H)]]; rewrite H; cbn [snd].
    + now apply pool_inv_started.
    + apply (pool_inv_started (set_fs _ w)); auto.
    + exact Hinv.
  - exact Hinv.
  - exact Hinv.
  - now rewrite pool_stat_frame.
  - now rewrite pool_info_frame.
  - exact Hinv.
  - exact Hinv.
  - (* get_vol_info *)
    destruct (dict_get vol_name (volumes (self w))) as [v|] eqn:Hn.
    + now rewrite (get_vol_info_tracked_frame _ _ _ verbose human Hn).
    + rewrite (get_vol_info_untracked_inserts _ _ verbose human Hn).
      rewrite <- (dict_set_absent _ _ _ Hn).
      apply pool_inv_dict_set; [exact Hinv | now left].
  - now rewrite pool_list_vols_frame.
  - (* create_volume *)
    destruct (active (self w)) eqn:Ha.
    + destruct (dict_get vol_name (volumes (self w))) as [v|] eqn:Hn.
      * now rewrite (create_volume_active_tracked _ _ _ _ Ha Hn).
      * rewrite (create_volume_active_untracked _ _ vol_format Ha Hn).
        rewrite <- (dict_set_absent _ _ _ Hn). cbn [snd].
        apply pool_inv_dict_set; [exact Hinv|]. right.
        split; [exact Ha|]. split; [reflexivity|].
        split; [reflexivity|]. now exists vol_format.
    + now rewrite (create_volume_inactive _ vol_name vol_format Ha).
  - (* delete_volume *)
    destruct (active (self w)) eqn:Ha.
    + destruct (dict_get vol_name (volumes (self w))) as [v|] eqn:Hn.
      * rewrite (delete_volume_tracked _ _ _ Ha Hn). cbn [snd].
        destruct (os_path_isfile (fs w) (vol_path v)).
        -- apply (pool_inv_dict_del (set_fs _ w)). exact Hinv.
        -- now apply pool_inv_dict_del.
      * apply dict_contains_false in Hn.
        now rewrite (delete_volume_untracked _ _ Ha Hn).
    + now rewrite (delete_volume_inactive _ vol_name Ha).
  - (* clone_volume *)
    destruct (active (self w)) eqn:Ha.
    + now rewrite (clone_volume_active _ source_vol dest_vol Ha).
    + now rewrite (clone_volume_inactive _ source_vol dest_vol Ha).
  - exact Hinv.
Qed.

Lemma perform_all_pool_inv cs w :
  Forall possible_call cs -> pool_inv w -> pool_inv (perform_all cs w).
Proof.
  revert w. induction cs as [|c cs IH]; intros w Hcs Hinv; [exact Hinv|].
  apply Forall_cons in Hcs as [Hc Hcs]. unfold perform_all. simpl.
  apply IH; [exact Hcs|]. now apply perform_pool_inv.
Qed.

(** What a single call can change of the pool object besides its
    volumes: nothing, unless it is [pool_start], which sets [active]
    and rewrites the configured path. *)
Lemma perform_fields c w :
  name (self (perform c w)) = name (self w) /\
  uuid (self (perform c w)) = uuid (self w) /\
  ((active (self (perform c w)) = active (self w) /\
    config (self (perform c w)) = config (self w)) \/
   (exists cwd, c = call_pool_start cwd) /\
   active (self (perform c w)) = true).
Proof.
  destruct c; simpl.
  - destruct (pool_start_cases w cwd)
      as [[Hd H]|[(He & Hpar & H)|(Hd & Hbad & H)]]; rewrite H; cbn;
      repeat split; eauto.
  - repeat split; auto.
  - repeat split; auto.
  - rewrite pool_stat_frame. repeat split; auto.
  - rewrite pool_info_frame. repeat split; auto.
  - repeat split; auto.
  - repeat split; auto.
  - destruct (dict_get vol_name (volumes (self w))) as [v|] eqn:Hn.
    + rewrite (get_vol_info_tracked_frame _ _ _ verbose human Hn).
      repeat split; auto.
    + rewrite (get_vol_info_untracked_inserts _ _ verbose human Hn).
      cbn. repeat split; auto.
  - rewrite pool_list_vols_frame. repeat split; auto.
  - destruct (active (self w)) eqn:Ha.
    + destruct (dict_get vol_name (volumes (self w))) as [v|] eqn:Hn.
      * rewrite (create_volume_active_tracked _ _ _ _ Ha Hn).
        repeat split; auto.
      * rewrite (create_volume_active_untracked _ _ vol_format Ha Hn).
        cbn. repeat split; auto.
    + rewrite (create_volume_inactive _ vol_name vol_format Ha).
      repeat split; auto.
  - destruct (active (self w)) eqn:Ha.
    + destruct (dict_get vol_name (volumes (self w))) as [v|] eqn:Hn.
      * rewrite (delete_volume_tracked _ _ _ Ha Hn). cbn.
        destruct (os_path_isfile (fs w) (vol_path v)); cbn;
          repeat split; auto.
      * apply dict_contains_false in Hn.
        rewrite (delete_volume_untracked _ _ Ha Hn). repeat split; auto.
    + rewrite (delete_volume_inactive _ vol_name Ha). repeat split; auto.
  - destruct (active (self w)) eqn:Ha.
    + rewrite (clone_volume_active _ source_vol dest_vol Ha).
      repeat split; auto.
    + rewrite (clone_volume_inactive _ source_vol dest_vol Ha).
      repeat split; auto.
  - repeat split; auto.
Qed.

(** X4: through any sequence of calls and outside changes, a pool
    keeps the name and the id it was given. *)
Theorem name_and_uuid_never_change (cs : list call) (w : world) :
  name (self (perform_all cs w)) = name (self w) /\
  uuid (self (perform_all cs w)) = uuid (self w).
Proof.
  revert w. induction cs as [|c cs IH]; intros w; [split; reflexivity|].
  unfold perform_all in *. simpl.
  destruct (IH (perform c w)) as [Hn Hu].
  destruct (perform_fields c w) as (Hn' & Hu' & _).
  split; congruence.
Qed.

(** X5: the [active] flag is written by [pool_start] alone and is never
    reset: an active pool stays active through any sequence of calls,
    and without a [pool_start] among them the flag and the
    configuration stay as they are. *)
Theorem active_only_set_by_pool_start (cs : list call) (w : world) :
  (active (self w) = true -> active (self (perform_all cs w)) = true) /\
  ((forall cwd, call_pool_start cwd ∉ cs) ->
   active (self (perform_all cs w)) = active (self w) /\
   config (self (perform_all cs w)) = config (self w)).
Proof.
  revert w. induction cs as [|c cs IH]; intros w; [auto|].
  unfold perform_all in *. simpl.
  destruct (IH (perform c w)) as [Hact Hno].
  destruct (perform_fields c w) as (_ & _ & [[Ha Hc]|[[cwd ->] Ha]]).
  - split.
    + intros Hw. apply Hact. congruence.
    + intros Hcs. destruct Hno as [H1 H2].
      { intros cwd Hin. apply (Hcs cwd). now right. }
      split; congruence.
  - split.
    + intros _. now apply Hact.
    + intros Hcs. exfalso. apply (Hcs cwd). left.
Qed.

Lemma active_only_set_by_pool_start_witness :
  active (self (perform_all
                  [call_create_volume "a" "qcow2"; call_pool_destroy;
                   call_delete_volume "a"] w_active)) = true.
Proof.
  apply (proj1 (active_only_set_by_pool_start _ w_active)). reflexivity.
Defined.

(** X6: in every state that a constructed pool reaches, whatever the
    calls and the outside changes, the volumes hold each name once, and
    each entry is either the empty placeholder left by a lookup or an
    entry written while the pool was active: the pool is active, the
    stored path is [os.path.join(D, n)] for the configured directory
    [D], which is absolute and normalised, the locator is ["file:"]
    followed by that path and the descriptor is that of the path.  In
    particular a pool that is not active tracks placeholders only. *)
Theorem reachable_entries (pool_name : string) (cfg : list (string * string))
    (fresh_uuid : N) (p : DirectoryPool) (fs0 : gmap string fnode)
    (cs : list call) :
  DirectoryPool_init pool_name cfg fresh_uuid = Ret p ->
  Forall possible_call cs ->
  let w := perform_all cs {| self := p; fs := fs0 |} in
  NoDup (dict_keys (volumes (self w))) /\
  (active (self w) = true -> normal_abs (path (config (self w)))) /\
  forall n v, dict_get n (volumes (self w)) = Some v ->
    v = default_volume \/
    (active (self w) = true /\
     vol_path v = os_path_join (path (config (self w))) n /\
     vol_url v = "file:" +:+ vol_path v /\
     exists f, vol_json v = show_json (attach_descriptor f (vol_path v))).
Proof.
  intros Hinit Hcs w.
  assert (Hinv : pool_inv {| self := p; fs := fs0 |}).
  { unfold DirectoryPool_init in Hinit.
    destruct (_parse_config cfg); [|discriminate]. injection Hinit as <-.
    split; [apply NoDup_nil_2|]. split; [discriminate|].
    intros n v Hget. discriminate. }
  destruct (perform_all_pool_inv cs _ Hcs Hinv) as (Hnd & Hnorm & Hent).
  fold w in Hnd, Hnorm, Hent.
  split; [exact Hnd|]. split; [exact Hnorm|].
  intros n v Hget. destruct (Hent n v Hget) as [Hv|(Ha & Hp & Hu & Hj)];
    [now left | right; auto].
Qed.

Lemma reachable_entries_witness :
  let w := perform_all
             [call_get_vol_info "ghost" false true; call_pool_start "/";
              call_create_volume "a" "qcow2"]
             w_fresh in
  dict_get "ghost" (volumes (self w)) = Some default_volume /\
  exists v, dict_get "a" (volumes (self w)) = Some v /\
            vol_path v = "/tmp/xyz/a".
Proof.
  intros w.
  destruct (reachable_entries "p1" [("path", "/tmp/xyz")] 7%N p1_fresh
              fs_empty_dir
              [call_get_vol_info "ghost" false true; call_pool_start "/";
               call_create_volume "a" "qcow2"]
              eq_refl)
    as (_ & _ & Hent).
  { repeat constructor. }
  split; [reflexivity|].
  eexists. split; [reflexivity|].
  destruct (Hent "a" _ eq_refl) as [Hv|(_ & Hp & _)]; [discriminate Hv|].
  exact Hp.
Defined.

(** ** How the volume operations compose *)




(** X8: a lookup of an unknown name spoils its later creation.  On an
    active pool, once [get_vol_info(n)] has been called for an
    untracked [n], whatever it did, [create_volume(n, f)] takes [n] for
    a tracked volume: it returns the empty string for a locator and
    leaves the empty entry in place. *)
Theorem lookup_spoils_create (w : world) (n f : string)
    (verbose human : bool) :
  active (self w) = true ->
  dict_contains n (volumes (self w)) = false ->
  let w1 := snd (get_vol_info n verbose human w) in
  create_volume n f w1 = (Ret EmptyString, w1) /\
  dict_get n (volumes (self w1)) = Some default_volume.
Proof.
  intros Ha Hc w1. apply dict_contains_false in Hc.
  assert (Hw1 : w1 = set_volumes
                       (volumes (self w) ++ [(n, default_volume)])%list w)
    by apply (get_vol_info_untracked_inserts _ _ verbose human Hc).
  assert (Hget : dict_get n (volumes (self w1)) = Some default_volume).
  { rewrite Hw1. cbn. rewrite <- (dict_set_absent _ _ _ Hc).
    apply dict_get_set_eq. }
  split; [|exact Hget].
  apply (create_volume_active_tracked w1 n f default_volume); [|exact Hget].
  rewrite Hw1. exact Ha.
Qed.

Lemma lookup_spoils_create_witness :
  create_volume "a" "qcow2" (snd (get_vol_info "a" false true w_active)) =
    (Ret EmptyString, snd (get_vol_info "a" false true w_active)).
Proof.
  exact (proj1 (lookup_spoils_create w_active "a" "qcow2" false true
                  eq_refl eq_refl)).
Defined.

(** X9: [get_vol_info] never changes the filesystem, the flags or the
    configuration of the pool; on a tracked name it changes nothing at
    all, whether it returns or raises, and on an untracked name the one
    change is the empty entry appended under that name. *)
Theorem get_vol_info_effects (w : world) (n : string) (verbose human : bool) :
  let w' := snd (get_vol_info n verbose human w) in
  fs w' = fs w /\
  active (self w') = active (self w) /\
  config (self w') = config (self w) /\
  (dict_contains n (volumes (self w)) = true -> w' = w) /\
  (dict_contains n (volumes (self w)) = false ->
   volumes (self w') = (volumes (self w) ++ [(n, default_volume)])%list).
Proof.
  intros w'. subst w'.
  destruct (dict_get n (volumes (self w))) as [v|] eqn:Hn.
  - rewrite (get_vol_info_tracked_frame _ _ _ verbose human Hn).
    repeat split; auto.
    unfold dict_contains. rewrite Hn. discriminate.
  - rewrite (get_vol_info_untracked_inserts _ _ verbose human Hn). cbn.
    repeat split; auto.
    unfold dict_contains. rewrite Hn. discriminate.
Qed.

Lemma get_vol_info_effects_witness :
  snd (get_vol_info "a" true true w_with_a) = w_with_a /\
  volumes (self (snd (get_vol_info "b" true true w_with_a))) =
    (volumes (self w_with_a) ++ [("b", default_volume)])%list.
Proof.
  split.
  - apply (proj1 (proj2 (proj2 (proj2
             (get_vol_info_effects w_with_a "a" true true))))).
    reflexivity.
  - apply (proj2 (proj2 (proj2 (proj2
             (get_vol_info_effects w_with_a "b" true true))))).
    reflexivity.
Defined.

Lemma dict_get_app_r {V : Type} (d1 d2 : list (string * V)) k :
  dict_get k d1 = None -> dict_get k (d1 ++ d2)%list = dict_get k d2.
Proof.
  induction d1 as [|[k0 v0] d1 IH]; simpl; [reflexivity|].
  destruct (String.eqb k k0); [discriminate | auto].
Qed.

Lemma listed_keys d : dict_keys (map listed d) = dict_keys d.
Proof. unfold dict_keys. rewrite map_map. reflexivity. Qed.

(** The loop of [pool_list_vols], entered with the entries [done]
    listed and the entries [rest] to come. *)
Lemma list_vols_loop_present w human done rest :
  volumes (self w) = (done ++ rest)%list ->
  NoDup (dict_keys (volumes (self w))) ->
  Forall (fun nv => os_path_isfile (fs w) (vol_path (snd nv)) = true) rest ->
  list_vols_loop (dict_keys rest) false human (map listed done) w =
    (Ret (map listed (volumes (self w))), w).
Proof.
  revert done. induction rest as [|[k v] rest IH]; intros done Hvols Hnd Hall.
  - rewrite Hvols, app_nil_r. reflexivity.
  - apply Forall_cons in Hall as [Hk Hall]. simpl in Hk.
    assert (Hnotin : dict_get k done = None).
    { apply dict_get_None_keys. rewrite Hvols in Hnd.
      unfold dict_keys in *. rewrite map_app in Hnd.
      apply NoDup_app in Hnd as (_ & Hdisj & _).
      intros Hin. apply (Hdisj k Hin). simpl. left. }
    assert (Hget : dict_get k (volumes (self w)) = Some v).
    { rewrite Hvols, (dict_get_app_r _ _ _ Hnotin). simpl.
      now rewrite String.eqb_refl. }
    change (dict_keys ((k, v) :: rest)) with (k :: dict_keys rest).
    cbn [list_vols_loop]. unfold bind at 1.
    rewrite (get_vol_info_tracked_present _ _ _ human Hget Hk).
    assert (Hacc : dict_get k (map listed done) = None).
    { apply dict_get_None_keys. rewrite listed_keys.
      now apply dict_get_None_keys. }
    rewrite (dict_set_absent _ _ _ Hacc).
    change [(k, VDict [("path", VStr (vol_path v))])]
      with (map listed [(k, v)]).
    rewrite <- map_app. apply IH; [|exact Hnd | exact Hall].
    now rewrite Hvols, <- app_assoc.
Qed.

Lemma list_vols_loop_first_missing w names human acc n v :
  (forall k, k ∈ names -> dict_contains k (volumes (self w)) = true) ->
  n ∈ names ->
  dict_get n (volumes (self w)) = Some v ->
  os_path_isfile (fs w) (vol_path v) = false ->
  exists m vm,
    dict_get m (volumes (self w)) = Some vm /\
    os_path_isfile (fs w) (vol_path vm) = false /\
    list_vols_loop names false human acc w =
      (Raise (PoolVolNotExistError (name (self w)) m), w).
Proof.
  intros Hsub Hin Hn Hf. revert acc.
  induction names as [|k names IH]; intros acc.
  - now apply elem_of_nil in Hin.
  - assert (Hk : dict_contains k (volumes (self w)) = true)
      by (apply Hsub; left).
    unfold dict_contains in Hk.
    destruct (dict_get k (volumes (self w))) as [vk|] eqn:Hget; [|discriminate].
    simpl. unfold bind.
    destruct (os_path_isfile (fs w) (vol_path vk)) eqn:Hfk.
    + rewrite (get_vol_info_tracked_present _ _ _ human Hget Hfk).
      apply IH.
      * intros k' Hk'. apply Hsub. now right.
      * apply elem_of_cons in Hin as [->|Hin]; [|exact Hin].
        congruence.
    + rewrite (get_vol_info_tracked_missing _ _ _ false human Hget Hfk).
      now exists k, vk.
Qed.

(** X10: [pool_list_vols()] with its default [verbose=False].  When
    the file of every tracked volume exists it returns, in the order of
    the volumes, each name with the dict of its path; when the file of
    some tracked volume is missing it raises the not-found error for a
    tracked volume without file and returns no partial listing.  Either
    way the world is as before. *)
Theorem pool_list_vols_result (w : world) (human : bool) :
  NoDup (dict_keys (volumes (self w))) ->
  (Forall (fun nv => os_path_isfile (fs w) (vol_path (snd nv)) = true)
          (volumes (self w)) ->
   pool_list_vols false human w = (Ret (map listed (volumes (self w))), w))
  /\
  (forall n v, dict_get n (volumes (self w)) = Some v ->
     os_path_isfile (fs w) (vol_path v) = false ->
     exists m vm,
       dict_get m (volumes (self w)) = Some vm /\
       os_path_isfile (fs w) (vol_path vm) = false /\
       pool_list_vols false human w =
         (Raise (PoolVolNotExistError (name (self w)) m), w)).
Proof.
  intros Hnd. split.
  - intros Hall. unfold pool_list_vols, bind, get.
    apply (list_vols_loop_present w human [] (volumes (self w)));
      [reflexivity | exact Hnd | exact Hall].
  - intros n v Hn Hf. unfold pool_list_vols, bind, get.
    apply (list_vols_loop_first_missing w _ human [] n v); auto.
    + intros k Hk. now apply dict_contains_keys.
    + apply dict_contains_keys. unfold dict_contains. now rewrite Hn.
Qed.

Lemma pool_list_vols_result_witness :
  pool_list_vols false true w_with_a =
    (Ret [("a", VDict [("path", VStr "/tmp/xyz/a")])], w_with_a) /\
  exists m,
    pool_list_vols false true (set_fs fs_empty_dir w_with_a) =
      (Raise (PoolVolNotExistError "p1" m), set_fs fs_empty_dir w_with_a).
Proof.
  split.
  - apply (proj1 (pool_list_vols_result w_with_a true (NoDup_singleton _))).
    repeat constructor.
  - destruct (proj2 (pool_list_vols_result (set_fs fs_empty_dir w_with_a) true
                       (NoDup_singleton _))
                "a" _ eq_refl eq_refl) as (m & vm & _ & _ & Hrun).
    now exists m.
Defined.

Lemma pool_stat_run w os_statvfs human :
  pool_stat os_statvfs human w =
    (match os_statvfs (path (config (self w))) with
     | Raise e => Raise e
     | Ret st =>
         let stat_dict :=
           [("capacity", f_bsize st * f_blocks st);
            ("available", f_bsize st * f_bavail st);
            ("allocation", f_bsize st * (f_blocks st - f_bavail st))] in
         if human then format_stat_dict stat_dict
         else Ret (map (fun kz => (fst kz, VInt (snd kz))) stat_dict)
     end, w).
Proof.
  open_world w. unfold pool_stat. run.
  destruct (os_statvfs D) as [st|e]; [|reflexivity].
  destruct human; reflexivity.
Qed.

Lemma format_stat_dict_shape a b c d :
  format_stat_dict [("capacity", a); ("available", b); ("allocation", c)]
    = Ret d ->
  exists ta tb tc,
    d = [("capacity", VStr ta); ("available", VStr tb);
         ("allocation", VStr tc)] /\
    format_size_human_readable a true = Ret ta /\
    format_size_human_readable b true = Ret tb /\
    format_size_human_readable c true = Ret tc.
Proof.
  cbn [format_stat_dict].
  destruct (format_size_human_readable a true) as [ta|]; [|discriminate].
  destruct (format_size_human_readable b true) as [tb|]; [|discriminate].
  destruct (format_size_human_readable c true) as [tc|]; [|discriminate].
  intros [= <-]. eauto 10.
Qed.

(** X11: [pool_stat] asks no question about the state of the pool: on
    any pool, active or not, it returns what [os.statvfs] reports for
    the configured path and raises what that call raises, leaving the
    world as it is.  The numbers of [pool_stat(human=False)] are listed
    as capacity, available and allocation, and capacity is the sum of
    the other two. *)
Theorem pool_stat_numbers (w : world)
    (os_statvfs : string -> outcome statvfs_result) :
  (forall e human,
     os_statvfs (path (config (self w))) = Raise e ->
     pool_stat os_statvfs human w = (Raise e, w)) /\
  (forall st,
     os_statvfs (path (config (self w))) = Ret st ->
     exists capacity available allocation,
       pool_stat os_statvfs false w =
         (Ret [("capacity", VInt capacity); ("available", VInt available);
               ("allocation", VInt allocation)], w) /\
       capacity = f_bsize st * f_blocks st /\
       available = f_bsize st * f_bavail st /\
       capacity = available + allocation).
Proof.
  split.
  - intros e human He. now rewrite pool_stat_run, He.
  - intros st Hst. rewrite pool_stat_run, Hst.
    eexists _, _, _. split; [reflexivity|]. cbn. repeat split. lia.
Qed.

Lemma pool_stat_numbers_witness :
  pool_stat (fun _ => Ret {| f_bsize := 4096; f_blocks := 1000; f_bavail := 250 |})
            false w_fresh =
    (Ret [("capacity", VInt 4096000); ("available", VInt 1024000);
          ("allocation", VInt 3072000)], w_fresh).
Proof.
  destruct (proj2 (pool_stat_numbers w_fresh
                     (fun _ => Ret {| f_bsize := 4096; f_blocks := 1000;
                                      f_bavail := 250 |}))
              _ eq_refl) as (c & a & l & Hrun & -> & -> & Hsum).
  rewrite Hrun. cbn in Hsum. cbn. repeat f_equal. lia.
Defined.

Lemma pool_info_run w os_statvfs :
  pool_info os_statvfs w =
    if active (self w) then
      match pool_stat os_statvfs true w with
      | (Ret info_dict, w1) =>
          (Ret (dict_set "state"
                  (VStr (if active (self w1) then "active" else "inactive"))
                  (dict_set "config"
                     (VDict [("path", VStr (path (config (self w1))))])
                     (dict_set "uuid" (VInt (Z.of_N (uuid (self w1))))
                        (dict_set "name" (VStr (name (self w1))) info_dict)))),
           w1)
      | (Raise e, w1) => (Raise e, w1)
      end
    else (Raise (DirectoryPoolInactiveError (name (self w)) "pool_info"), w).
Proof.
  open_world w. destruct act; [|reflexivity].
  unfold pool_info, bind at 1. unfold is_pool_active, bind at 1.
  unfold get, ret. cbv beta iota. cbn [active self negb].
  unfold bind at 1.
  destruct (pool_stat os_statvfs true _) as [[d|e] w1]; reflexivity.
Qed.

(** X12: [pool_info] on a pool that is not active raises the
    inactive-pool error naming the pool and [pool_info], before any
    call of [os.statvfs].  When it returns, the dict lists capacity,
    available, allocation, name, uuid, config and state in that order,
    with the formatted statistics, the name, the id and the configured
    path of the pool, and the state is always ["active"]: the label
    ["inactive"] is never reported.  The world is left as it is. *)
Theorem pool_info_result (w : world)
    (os_statvfs : string -> outcome statvfs_result) :
  (active (self w) = false ->
   pool_info os_statvfs w =
     (Raise (DirectoryPoolInactiveError (name (self w)) "pool_info"), w)) /\
  (forall d w',
     pool_info os_statvfs w = (Ret d, w') ->
     w' = w /\
     active (self w) = true /\
     exists capacity available allocation,
       d = [("capacity", VStr capacity); ("available", VStr available);
            ("allocation", VStr allocation);
            ("name", VStr (name (self w)));
            ("uuid", VInt (Z.of_N (uuid (self w))));
            ("config", VDict [("path", VStr (path (config (self w))))]);
            ("state", VStr "active")]).
Proof.
  rewrite pool_info_run, pool_stat_run.
  destruct (active (self w)) eqn:Ha.
  - split; [discriminate|]. intros d w'.
    destruct (os_statvfs _) as [st|e]; [|discriminate]. cbv zeta.
    destruct (format_stat_dict _) as [d0|e] eqn:Hd0; [|discriminate].
    destruct (format_stat_dict_shape _ _ _ _ Hd0) as (ta & tb & tc & -> & _).
    intros [= <- <-]. split; [reflexivity|]. split; [reflexivity|].
    exists ta, tb, tc. reflexivity.
  - split; [reflexivity | discriminate].
Qed.

Lemma pool_info_result_witness :
  pool_info (fun _ => Raise OSError) w_fresh =
    (Raise (DirectoryPoolInactiveError "p1" "pool_info"), w_fresh).
Proof.
  apply (proj1 (pool_info_result w_fresh (fun _ => Raise OSError))).
  reflexivity.
Defined.

(** ** More on size formatting *)





Lemma outcome_eqb_eq a b : outcome_eqb a b = true -> a = b.
Proof.
  destruct a as [x|?], b as [y|?]; simpl; try discriminate.
  intros H. apply String.eqb_eq in H. now subst.
Qed.

Lemma whole_units_checked_sound binary imax :
  whole_units_checked binary imax = true ->
  forall (k : Z) (i : nat),
    1 <= k < size_base binary -> (i <= imax)%nat ->
    format_size_human_readable (k * size_base binary ^ Z.of_nat i) binary =
      Ret (whole_units binary k i).
Proof.
  unfold whole_units_checked. intros Hall k i Hk Hi.
  rewrite forallb_forall in Hall.
  assert (Hin : In i (seq 0 (S imax))) by (apply in_seq; lia).
  specialize (Hall i Hin). rewrite forallb_forall in Hall.
  assert (Hkin : In (Z.to_nat k) (seq 1 (Z.to_nat (size_base binary) - 1))).
  { apply in_seq. destruct binary; simpl in *; lia. }
  specialize (Hall _ Hkin). apply outcome_eqb_eq in Hall.
  now rewrite Z2Nat.id in Hall by lia.
Qed.

Lemma whole_units_binary : whole_units_checked true 8 = true.
Proof. vm_compute. reflexivity. Qed.

Lemma whole_units_decimal : whole_units_checked false 5 = true.
Proof. vm_compute. reflexivity. Qed.

(** X14: an exact multiple [k * base^i] of a unit, with [k] from 1
    below the base, prints as the bare integer [k] followed by the
    suffix of rank [i]: for every unit of the binary table, and for the
    units of the decimal table up to [PB].  (From [EB] on the double
    arithmetic of the decimal table is inexact, see
    [format_size_inexact_decimal].) *)
Theorem format_size_whole_units (binary : bool) (k : Z) (i : nat) :
  1 <= k < size_base binary ->
  (i <= if binary then 8 else 5)%nat ->
  exists s,
    nth_error (suffixes binary) i = Some s /\
    format_size_human_readable (k * size_base binary ^ Z.of_nat i) binary =
      Ret (str_of_Z k +:+ " " +:+ s).
Proof.
  intros Hk Hi.
  assert (Hs : nth_error (suffixes binary) i =
               Some (nth i (suffixes binary) EmptyString)).
  { apply nth_error_nth'. destruct binary; simpl; lia. }
  eexists. split; [exact Hs|].
  destruct binary.
  - exact (whole_units_checked_sound true 8 whole_units_binary k i Hk Hi).
  - exact (whole_units_checked_sound false 5 whole_units_decimal k i Hk Hi).
Qed.

Lemma format_size_whole_units_witness :
  exists s,
    nth_error (suffixes true) 3 = Some s /\
    format_size_human_readable (20 * size_base true ^ Z.of_nat 3) true =
      Ret (str_of_Z 20 +:+ " " +:+ s).
Proof.
  apply (format_size_whole_units true 20 3); [simpl; lia | simpl; lia].
Defined.

(** Where the decimal table stops being exact. *)
Example format_size_inexact_decimal :
  format_size_human_readable (19 * 1000 ^ 6) false = Ret "19.0 EB" /\
  format_size_human_readable (1000 ^ 8) false = Ret "1000 ZB" /\
  format_size_human_readable 0 false = Ret "0 B".
Proof. repeat split; vm_compute; reflexivity. Qed.

(** ** Verbose volume information *)

Lemma S_IMODE_bounds mode : 0 <= S_IMODE mode < 4096.
Proof.
  unfold S_IMODE. change 4095 with (Z.ones 12).
  rewrite Z.land_ones by lia. apply Z.mod_pos_bound. reflexivity.
Qed.

(** X15: verbose information on a tracked volume whose file exists.
    Without [human], the dict lists path, size, the allocated size of
    512 bytes a block (only where the platform reports blocks), the
    permission bits, which lie below 4096, owner, group and the three
    timestamps, and the world is unchanged.  With [human], a file that
    occupies no block keeps the number 0 for its allocated size while
    its size is given as formatted text. *)
Theorem get_vol_info_verbose (w : world) (n : string) (v : volume)
    (st : stat_result) (content : string) :
  dict_get n (volumes (self w)) = Some v ->
  fs w !! vol_path v = Some (RegularFile st content) ->
  get_vol_info n true false w =
    (Ret ([("path", VStr (vol_path v)); ("size", VInt (st_size st))]
          ++ match st_blocks st with
             | Some b => [("allocated_size", VInt (b * 512))]
             | None => []
             end
          ++ [("mode", VInt (S_IMODE (st_mode st)));
              ("owner", VInt (st_uid st));
              ("group", VInt (st_gid st));
              ("timestamp",
               VDict [("atime", VFloat (st_atime st));
                      ("mtime", VFloat (st_mtime st));
                      ("ctime", VFloat (st_ctime st))])])%list, w) /\
  0 <= S_IMODE (st_mode st) < 4096 /\
  (st_blocks st = Some 0 ->
   forall text, format_size_human_readable (st_size st) true = Ret text ->
   exists d,
     get_vol_info n true true w = (Ret d, w) /\
     dict_get "size" d = Some (VStr text) /\
     dict_get "allocated_size" d = Some (VInt 0)).
Proof.
  intros Hn Hfile.
  assert (Hisfile : os_path_isfile (fs w) (vol_path v) = true)
    by (unfold os_path_isfile; now rewrite Hfile).
  assert (Hstat : os_stat (fs w) (vol_path v) = Some st)
    by (unfold os_stat; now rewrite Hfile).
  assert (Hrun : forall human,
    get_vol_info n true human w =
      (vol_stat_info st human [("path", VStr (vol_path v))], w)).
  { intros human. unfold get_vol_info, bind at 1.
    rewrite (volumes_getitem_present _ _ _ Hn).
    open_world w. run. now rewrite Hisfile, Hstat. }
  split; [|split].
  - rewrite Hrun. unfold vol_stat_info.
    destruct (st_blocks st); reflexivity.
  - apply S_IMODE_bounds.
  - intros Hb text Htext. rewrite Hrun. unfold vol_stat_info.
    rewrite Hb, Htext. cbn. eexists. split; [reflexivity|].
    split; reflexivity.
Qed.

Lemma get_vol_info_verbose_witness :
  get_vol_info "a" true false w_with_a =
    (Ret [("path", VStr "/tmp/xyz/a"); ("size", VInt 4);
          ("allocated_size", VInt 4096); ("mode", VInt 420);
          ("owner", VInt 0); ("group", VInt 0);
          ("timestamp",
           VDict [("atime", VFloat (S754_zero false));
                  ("mtime", VFloat (S754_zero false));
                  ("ctime", VFloat (S754_zero false))])], w_with_a).
Proof.
  exact (proj1 (get_vol_info_verbose w_with_a "a" _ a_stat "data"
                  eq_refl eq_refl)).
Defined.

(** ** Parsing extra parameters *)

Lemma has_char_app c a b :
  has_char c (a +:+ b) = has_char c a || has_char c b.
Proof.
  induction a as [|x a IH]; simpl; [reflexivity|].
  now rewrite IH, orb_assoc.
Qed.

Lemma split_char_app_sep c s t :
  split_char c (s +:+ String c t) = (split_char c s ++ split_char c t)%list.
Proof.
  induction s as [|a s IH]; simpl.
  - now rewrite Ascii.eqb_refl.
  - destruct (Ascii.eqb a c); [now rewrite IH|].
    rewrite IH. destruct (split_char c s) as [|h tl] eqn:E; [|reflexivity].
    exfalso. destruct s as [|b s]; simpl in E; [discriminate|].
    destruct (Ascii.eqb b c); [discriminate|].
    destruct (split_char c s); discriminate.
Qed.

Lemma split_once_found c k v :
  has_char c k = false ->
  split_once c (k +:+ String c v) = (k, Some v).
Proof.
  induction k as [|a k IH]; simpl.
  - now rewrite Ascii.eqb_refl.
  - intros H. apply orb_false_iff in H as [Ha Hk].
    now rewrite Ha, (IH Hk).
Qed.

Lemma split_once_none c s :
  has_char c s = false -> split_once c s = (s, None).
Proof.
  induction s as [|a s IH]; simpl; [reflexivity|].
  intros H. apply orb_false_iff in H as [Ha Hs]. now rewrite Ha, (IH Hs).
Qed.

Lemma split_once_some c s :
  has_char c s = true ->
  exists k v, split_once c s = (k, Some v) /\ has_char c k = false /\
              s = k +:+ String c v.
Proof.
  induction s as [|a s IH]; simpl; [discriminate|].
  destruct (Ascii.eqb a c) eqn:E.
  - intros _. apply Ascii.eqb_eq in E. subst a.
    exists EmptyString, s. repeat split.
  - simpl. intros H. destruct (IH H) as (k & v & Hs & Hk & ->).
    exists (String a k), v. rewrite Hs. simpl. rewrite E, Hk. repeat split.
Qed.

Lemma dict_of_items_app l1 l2 d :
  dict_of_items (l1 ++ l2)%list d =
    match dict_of_items l1 d with
    | Ret d' => dict_of_items l2 d'
    | Raise e => Raise e
    end.
Proof.
  revert d. induction l1 as [|item l1 IH]; intros d; simpl; [reflexivity|].
  destruct (split_once "=" item) as [k [v|]]; [apply IH | reflexivity].
Qed.

Lemma param_item_split kv :
  plain_param kv ->
  split_char "," (param_item kv) = [param_item kv] /\
  String.eqb (param_item kv) EmptyString = false /\
  split_once "=" (param_item kv) = (fst kv, Some (snd kv)).
Proof.
  intros (Heq & Hck & Hcv). unfold param_item. split; [|split].
  - apply split_char_no_occurrence.
    rewrite has_char_app, Hck. simpl. exact Hcv.
  - destruct (fst kv); reflexivity.
  - now apply split_once_found.
Qed.

(** X16: adding one parameter to the text is one update of the dict.
    If [_parse_extra_params(s)] returns [d], then for a key free of
    [=] and commas and a value free of commas the text [s,k=v] parses
    to [d] with [k] bound to [v]: a key met again takes the later
    value and keeps its place, a new key goes last.  The value may
    itself hold [=]. *)
Theorem parse_extra_params_append (s k v : string)
    (d : list (string * string)) :
  _parse_extra_params s = Ret d ->
  plain_param (k, v) ->
  _parse_extra_params (s +:+ "," +:+ k +:+ "=" +:+ v) = Ret (dict_set k v d).
Proof.
  intros Hs Hkv. unfold _parse_extra_params in *.
  change (s +:+ "," +:+ k +:+ "=" +:+ v)
    with (s +:+ String "," (param_item (k, v))).
  rewrite split_char_app_sep, List.filter_app, dict_of_items_app, Hs.
  destruct (param_item_split _ Hkv) as (H1 & H2 & H3).
  rewrite H1. simpl List.filter. rewrite H2. simpl.
  now rewrite H3.
Qed.

Lemma parse_extra_params_append_witness :
  _parse_extra_params "a=1,b=2,a=x=y" = Ret [("a", "x=y"); ("b", "2")].
Proof.
  apply (parse_extra_params_append "a=1,b=2" "a" "x=y" [("a", "1"); ("b", "2")]).
  - reflexivity.
  - repeat split.
Defined.

Lemma dict_of_items_fresh d acc :
  NoDup (dict_keys (acc ++ d)%list) ->
  Forall plain_param d ->
  dict_of_items (map param_item d) acc = Ret (acc ++ d)%list.
Proof.
  revert acc. induction d as [|[k v] d IH]; intros acc Hnd Hall; simpl.
  - now rewrite app_nil_r.
  - apply Forall_cons in Hall as [Hkv Hall].
    destruct (param_item_split _ Hkv) as (_ & _ & ->). simpl.
    assert (Hk : dict_get k acc = None).
    { apply dict_get_None_keys. unfold dict_keys in *.
      rewrite map_app in Hnd. apply NoDup_app in Hnd as (_ & Hdisj & _).
      intros Hin. apply (Hdisj k Hin). simpl. left. }
    rewrite (dict_set_absent _ _ _ Hk), IH.
    + now rewrite <- app_assoc.
    + now rewrite <- app_assoc.
    + exact Hall.
Qed.

Lemma filter_param_items d :
  Forall plain_param d ->
  List.filter (fun item => negb (String.eqb item EmptyString))
    (map param_item d) = map param_item d.
Proof.
  induction d as [|kv d IH]; intros Hall; simpl; [reflexivity|].
  apply Forall_cons in Hall as [Hkv Hall].
  destruct (param_item_split _ Hkv) as (_ & -> & _). simpl.
  now rewrite IH.
Qed.

(** X17: writing a dict of parameters as text and parsing the text
    gives the dict back, entry for entry and in order, provided the
    keys are distinct and free of [=] and commas and the values free
    of commas. *)
Theorem parse_extra_params_roundtrip (d : list (string * string)) :
  NoDup (dict_keys d) ->
  Forall plain_param d ->
  _parse_extra_params (render_params d) = Ret d.
Proof.
  intros Hnd Hall. unfold _parse_extra_params, render_params.
  destruct d as [|kv d]; [reflexivity|].
  rewrite split_char_join.
  - rewrite (filter_param_items _ Hall).
    now apply (dict_of_items_fresh (kv :: d) []).
  - discriminate.
  - apply Forall_fmap. eapply Forall_impl; [exact Hall|].
    intros x (_ & Hk & Hv). unfold compose, param_item.
    rewrite has_char_app, Hk. simpl. exact Hv.
Qed.

Lemma parse_extra_params_roundtrip_witness :
  _parse_extra_params (render_params [("bus", "pci.0"); ("addr", "0x4")]) =
    Ret [("bus", "pci.0"); ("addr", "0x4")].
Proof.
  apply parse_extra_params_roundtrip.
  - apply NoDup_cons. split; [|apply NoDup_singleton].
    intros H. apply list_elem_of_singleton in H. discriminate H.
  - repeat constructor.
Defined.

Lemma dict_set_Forall {V : Type} (P : string * V -> Prop) d k v :
  Forall P d -> P (k, v) -> Forall P (dict_set k v d).
Proof.
  intros Hd Hkv. induction d as [|[k0 v0] d IH]; simpl.
  - now constructor.
  - apply Forall_cons in Hd as [H0 Hd].
    destruct (String.eqb k k0) eqn:E.
    + apply String.eqb_eq in E. subst k0. now constructor.
    + constructor; auto.
Qed.

Lemma dict_of_items_good items d :
  Forall (fun item => has_char "=" item = true /\ has_char "," item = false)
         items ->
  Forall plain_param d ->
  exists d', dict_of_items items d = Ret d' /\ Forall plain_param d'.
Proof.
  revert d. induction items as [|item items IH]; intros d Hall Hd; simpl.
  - eauto.
  - apply Forall_cons in Hall as [[Heq Hcomma] Hall].
    destruct (split_once_some _ _ Heq) as (k & v & -> & Hk & ->).
    apply IH; [exact Hall|]. apply dict_set_Forall; [exact Hd|].
    rewrite has_char_app in Hcomma. apply orb_false_iff in Hcomma as [Hck Hcv].
    simpl in Hcv. repeat split; assumption.
Qed.

Lemma dict_of_items_bad items d item :
  item ∈ items -> has_char "=" item = false ->
  dict_of_items items d = Raise ValueError.
Proof.
  revert d. induction items as [|it items IH]; intros d Hin Hbad.
  - now apply elem_of_nil in Hin.
  - simpl. apply elem_of_cons in Hin as [<-|Hin].
    + now rewrite (split_once_none _ _ Hbad).
    + destruct (split_once "=" it) as [k [v|]]; [|reflexivity].
      now apply IH.
Qed.

(** X18: [_parse_extra_params] returns exactly when every non-empty
    item between commas holds an [=]; empty items are skipped.  The
    keys of the dict it returns hold neither [=] nor a comma and the
    values no comma.  An item without [=] makes it raise [ValueError],
    whatever the other items. *)
Theorem parse_extra_params_outcome (s : string) :
  (Forall (fun item => item = EmptyString \/ has_char "=" item = true)
          (split_char "," s) ->
   exists d, _parse_extra_params s = Ret d /\ Forall plain_param d) /\
  (forall item, item ∈ split_char "," s ->
     item <> EmptyString -> has_char "=" item = false ->
     _parse_extra_params s = Raise ValueError).
Proof.
  unfold _parse_extra_params. split.
  - intros Hall. apply dict_of_items_good; [|constructor].
    pose proof (split_char_no_sep "," s) as Hsep.
    induction (split_char "," s) as [|item items IH]; simpl; [constructor|].
    apply Forall_cons in Hall as [Hitem Hall].
    apply Forall_cons in Hsep as [Hc Hsep].
    destruct (String.eqb_spec item EmptyString) as [->|Hne]; simpl.
    + now apply IH.
    + constructor; [|now apply IH].
      destruct Hitem as [->|Heq]; [congruence | auto].
  - intros item Hin Hne Hbad.
    apply (dict_of_items_bad _ _ item); [|exact Hbad].
    apply list_elem_of_In, filter_In. split; [now apply list_elem_of_In|].
    apply String.eqb_neq in Hne. now rewrite Hne.
Qed.

Lemma parse_extra_params_outcome_witness :
  (exists d, _parse_extra_params ",a=1,,b=" = Ret d) /\
  _parse_extra_params "a=1,b" = Raise ValueError.
Proof.
  split.
  - destruct (proj1 (parse_extra_params_outcome ",a=1,,b=")) as (d & Hd & _).
    + repeat constructor; (now left) || (now right).
    + now exists d.
  - apply (proj2 (parse_extra_params_outcome "a=1,b") "b").
    + right. left.
    + discriminate.
    + reflexivity.
Defined.

(** ** Volume names that are paths *)



